(** * glacier_check: inventory reconciliation

    A shallow embedding of [glacier_check/glacier_check.py], with the
    properties of the inventory loader, the projection, the incremental
    updater, the reconciler and the receipt generator.

    Modelling choices.
    - An inventory is the Python dict that [json.load] yields for a
      document of the schema [{ArchiveList: [record, ...]}]; a record is a
      dict from field names to strings.  Both are finite maps with string
      keys ([gmap string _]): a record may lack fields or carry extra ones,
      and an inventory may lack its [ArchiveList].  Field values are
      strings, as in the schema; documents whose fields hold other JSON
      values are outside the model.
    - The dict built by [dictify_inventory] is iterated over, so its
      insertion order is kept: it is an association list updated the way
      a Python dict is ([dict_set]).
    - The result of [keys() & keys()] is a Python set, a [gset string];
      iterating over it is [elements], whose order is unspecified, as the
      order of a Python set is.  Only facts that do not depend on that
      order are stated.
    - Exceptions are values of [exn]; a call that may raise returns a
      [result].  Code that reads files or the clock runs in [io], a state
      and exception monad over a [world].
    - [calculate_tree_hash] (botocore), [json.load], [os.path.join] and
      [os.path.abspath] are library code: they are parameters.  The parser
      may raise any exception of [exn], among them [RecursionError], which
      the loader does not catch.
    - [print] writes to standard output, which a [process] carries.  The
      progress bar that [tqdm] draws goes to standard error, which is not
      part of the model. *)

From stdpp Require Import gmap strings list fin_maps.

Open Scope string_scope.
Open Scope list_scope.

(** ** Exceptions and results *)

Inductive exn : Type :=
| KeyError (key : string)
| IOError (path : string)
| ValueError
| RecursionError.

Inductive result (A : Type) : Type :=
| Ok (a : A)
| Raise (e : exn).

Arguments Ok {A} a.
Arguments Raise {A} e.

#[global] Instance result_ret : MRet result := λ A a, Ok a.

#[global] Instance result_bind : MBind result := λ A B f m,
  match m with
  | Ok a => f a
  | Raise e => Raise e
  end.

Definition raises {A} (m : result A) : Prop := ∃ e, m = Raise e.

Definition returns {A} (m : result A) : Prop := ∃ a, m = Ok a.

(** ** Python dicts with string keys *)

(** [m[k]] on a dict read from a JSON document. *)
Definition getitem {V} (m : gmap string V) (k : string) : result V :=
  match m !! k with
  | Some v => Ok v
  | None => Raise (KeyError k)
  end.

(** A dict that is built by insertion and iterated over: the pairs in
    insertion order, each key once. *)
Abbreviation pydict := (list (string * string)).

Fixpoint dict_get (d : pydict) (k : string) : option string :=
  match d with
  | [] => None
  | (k', v) :: d' => if decide (k' = k) then Some v else dict_get d' k
  end.

(** [d[k] = v]: an existing key keeps its position and takes the new
    value, a new key goes last. *)
Fixpoint dict_set (d : pydict) (k v : string) : pydict :=
  match d with
  | [] => [(k, v)]
  | (k', v') :: d' =>
      if decide (k' = k) then (k', v) :: d' else (k', v') :: dict_set d' k v
  end.

(** [d.keys()], in iteration order. *)
Definition dict_keys (d : pydict) : list string := d.*1.

(** [k in d]. *)
Definition dict_contains (d : pydict) (k : string) : bool :=
  match dict_get d k with
  | Some _ => true
  | None => false
  end.

(** [d[k]]. *)
Definition dict_getitem (d : pydict) (k : string) : result string :=
  match dict_get d k with
  | Some v => Ok v
  | None => Raise (KeyError k)
  end.

(** ** Inventories *)

Abbreviation entry := (gmap string string).
Abbreviation inventory := (gmap string (list (gmap string string))).

(** The record that [update_local_inventory] appends. *)
Definition archive_entry (name created_at checksum : string) : entry :=
  {[ "ArchiveDescription" := name;
     "CreationDate" := created_at;
     "SHA256TreeHash" := checksum ]}.

(** [{'ArchiveList': []}] *)
Definition empty_inventory : inventory := {[ "ArchiveList" := [] ]}.

(** The dict comprehension of [dictify_inventory]: the records are taken
    in list order; for each one the key expression is evaluated, then the
    value expression, then the pair is stored. *)
Fixpoint dictify_entries (entries : list entry) (acc : pydict) : result pydict :=
  match entries with
  | [] => Ok acc
  | e :: rest =>
      k ← getitem e "ArchiveDescription";
      v ← getitem e "SHA256TreeHash";
      dictify_entries rest (dict_set acc k v)
  end.

Definition dictify_inventory (inv : inventory) : result pydict :=
  archive_list ← getitem inv "ArchiveList";
  dictify_entries archive_list [].

(** A record carries the two fields the projection reads. *)
Definition well_formed (e : entry) : Prop :=
  is_Some (e !! "ArchiveDescription") ∧ is_Some (e !! "SHA256TreeHash").

(** The record named [name] with checksum [checksum], without a date. *)
Definition rec2 (name checksum : string) : entry :=
  {[ "ArchiveDescription" := name; "SHA256TreeHash" := checksum ]}.

(** [{'ArchiveList': l}] *)
Definition inv_of (l : list entry) : inventory := {[ "ArchiveList" := l ]}.

(** ** Reconciler *)

Definition check_missing_files (from_inventory against_inventory : inventory)
  : result (list string) :=
  from_inventory_dict ← dictify_inventory from_inventory;
  against_inventory_dict ← dictify_inventory against_inventory;
  Ok (filter (λ k, dict_contains from_inventory_dict k = false)
        (dict_keys against_inventory_dict)).

(** A list comprehension whose condition may raise. *)
Fixpoint filter_result {A} (p : A → result bool) (l : list A) : result (list A) :=
  match l with
  | [] => Ok []
  | x :: l' =>
      b ← p x;
      rest ← filter_result p l';
      Ok (if b : bool then x :: rest else rest)
  end.

(** [a.keys() & b.keys()] *)
Definition keys_intersection (a b : pydict) : gset string :=
  list_to_set (dict_keys a) ∩ list_to_set (dict_keys b).

Definition check_mismatched_files (local_inventory remote_inventory : inventory)
  : result (list string) :=
  local_inventory_dict ← dictify_inventory local_inventory;
  remote_inventory_dict ← dictify_inventory remote_inventory;
  let intersect := keys_intersection local_inventory_dict remote_inventory_dict in
  filter_result
    (λ k, l ← dict_getitem local_inventory_dict k;
          r ← dict_getitem remote_inventory_dict k;
          Ok (negb (String.eqb l r)))
    (elements intersect).

(** ** The world: files and the clock *)

(** A path names nothing, a file that cannot be opened, or a file with
    its content. *)
Inductive file_node : Type :=
| Unreadable
| Regular (content : string).

(** [clock] is the sequence of formatted readings that successive calls of
    [datetime.now().strftime('%Y-%m-%d %H:%M:%S')] yield; [clock_reads]
    counts the readings taken so far. *)
Record world : Type := World {
  files : gmap string file_node;
  clock : nat → string;
  clock_reads : nat
}.

Definition io (A : Type) : Type := world → result A * world.

#[global] Instance io_ret : MRet io := λ A a w, (Ok a, w).

#[global] Instance io_bind : MBind io := λ A B f m w,
  match m w with
  | (Ok a, w') => f a w'
  | (Raise e, w') => (Raise e, w')
  end.

Definition lift {A} (r : result A) : io A := λ w, (r, w).

(** [try: body except (classes): handler] *)
Definition try_except {A} (body : io A) (caught : exn → bool) (handler : io A) : io A :=
  λ w,
    match body w with
    | (Ok a, w') => (Ok a, w')
    | (Raise e, w') => if caught e then handler w' else (Raise e, w')
    end.

(** [open(path, mode)] followed by reading the whole file. *)
Definition open_read (path : string) : io string := λ w,
  match files w !! path with
  | Some (Regular content) => (Ok content, w)
  | Some Unreadable | None => (Raise (IOError path), w)
  end.

(** [datetime.now().strftime('%Y-%m-%d %H:%M:%S')] *)
Definition datetime_now : io string := λ w,
  (Ok (clock w (clock_reads w)),
   {| files := files w; clock := clock w; clock_reads := S (clock_reads w) |}).

(** The world after [n] more readings of the clock. *)
Definition advance (w : world) (n : nat) : world :=
  {| files := files w; clock := clock w; clock_reads := clock_reads w + n |}.

(** [tqdm] wraps an iterable in a progress bar and yields its items; the
    bar is drawn on standard error. *)
Definition tqdm {A} (l : list A) : list A := l.

(** The value of a receipt field. *)
Inductive receipt_value : Type :=
| RStr (s : string)
| RList (l : list string).

Section Glacier.

(** Library code the module calls. [json_load] is what [json.load] does
    with the content of a file: it returns the parsed document or raises.
    Text that is not JSON raises [ValueError]; nesting deeper than the
    interpreter's recursion limit raises [RecursionError]. *)
Context (os_path_join : string → string → string).
Context (os_path_abspath : string → string).
Context (json_load : string → result inventory).
Context (calculate_tree_hash : string → string).

Definition except_IOError_ValueError (e : exn) : bool :=
  match e with
  | IOError _ | ValueError => true
  | KeyError _ | RecursionError => false
  end.

Definition load_inventory (local_dir filename : string) : io inventory :=
  try_except
    (content ← open_read (os_path_join local_dir filename);
     lift (json_load content))
    except_IOError_ValueError
    (mret empty_inventory).

(** The body of the loop of [update_local_inventory], for the
    filenames still to visit. *)
Fixpoint update_loop (local_dir : string) (old_local_inventory_dict : pydict)
    (filenames : list string) (archive_list : list entry) : io (list entry) :=
  match filenames with
  | [] => mret archive_list
  | f :: rest =>
      checksum ←
        (if dict_contains old_local_inventory_dict f
         then lift (dict_getitem old_local_inventory_dict f)
         else
           target_file ← open_read (os_path_join local_dir f);
           mret (calculate_tree_hash target_file));
      created ← datetime_now;
      update_loop local_dir old_local_inventory_dict rest
        (archive_list ++ [archive_entry f created checksum])
  end.

Definition update_local_inventory (local_dir : string)
    (local_filenames : list string) (old_local_inventory : inventory)
  : io inventory :=
  old_local_inventory_dict ← lift (dictify_inventory old_local_inventory);
  archive_list ←
    update_loop local_dir old_local_inventory_dict (tqdm local_filenames) [];
  mret ({[ "ArchiveList" := archive_list ]} : inventory).

Definition generate_check_receipt (local_dir : string)
    (missing_local_files missing_remote_files mismatched_files : list string)
  : io (gmap string receipt_value) :=
  timestamp ← datetime_now;
  mret ({[ "local_dir" := RStr (os_path_abspath local_dir);
           "missing_local_files" := RList missing_local_files;
           "missing_remote_files" := RList missing_remote_files;
           "mismatched_files" := RList mismatched_files;
           "timestamp" := RStr timestamp ]} : gmap string receipt_value).

(** How the checksum that [update_local_inventory] records for [f] is
    obtained: from the projection [d] of the previous inventory, or, for a
    name [d] does not have, by hashing the content of the file. *)
Definition checksum_for (local_dir : string) (d : pydict) (w : world)
    (f checksum : string) : Prop :=
  dict_get d f = Some checksum ∨
  (dict_get d f = None ∧
   ∃ content, files w !! os_path_join local_dir f = Some (Regular content) ∧
              checksum = calculate_tree_hash content).

End Glacier.

(** ** A small world to run the functions in *)

Definition demo_join (a b : string) : string := a +:+ "/" +:+ b.

Definition demo_abspath (p : string) : string := "/home/user/" +:+ p.

Definition demo_tree_hash (content : string) : string := "hash-of-" +:+ content.

(** Stands for a parser: one content is a document, the others are not. *)
Definition demo_json_load (content : string) : result inventory :=
  if decide (content = "inventory-document")
  then Ok (inv_of [rec2 "a.txt" "H1"])
  else Raise ValueError.

Definition demo_clock (n : nat) : string :=
  match n with
  | 0 => "2024-05-01 10:00:00"
  | 1 => "2024-05-01 10:00:07"
  | _ => "2024-05-01 10:00:09"
  end.

Definition demo_world : world :=
  {| files := {[ "photos/a.txt" := Regular "new bytes of a";
                 "photos/b.txt" := Regular "bytes of b";
                 "photos/local-inventory.json" := Regular "inventory-document";
                 "photos/remote-inventory.json" := Regular "not a document";
                 "photos/locked.json" := Unreadable ]};
     clock := demo_clock;
     clock_reads := 0 |}.

(** ** The rest of the module: enumeration, persistence, console *)

Definition REMOTE_INVENTORY_FILENAME : string := "remote-inventory.json".

Definition LOCAL_INVENTORY_FILENAME : string := "local-inventory.json".

Definition CHECK_RECEIPT_FILENAME : string := "check-receipt.json".

Definition EXCLUDE_FILENAMES : list string :=
  [REMOTE_INVENTORY_FILENAME; LOCAL_INVENTORY_FILENAME; CHECK_RECEIPT_FILENAME].

(** [open(path, 'w')] followed by writing [content]: the file is created or
    replaced.  Directories are not part of a [world]; a path that names
    nothing can be created, a node that cannot be opened makes [open]
    raise. *)
Definition write_file (path content : string) : io unit := λ w,
  match files w !! path with
  | Some Unreadable => (Raise (IOError path), w)
  | Some (Regular _) | None =>
      (Ok (),
       {| files := <[path := Regular content]> (files w);
          clock := clock w; clock_reads := clock_reads w |})
  end.

(** [os.remove(path)]: raises when the path names nothing. *)
Definition os_remove (path : string) : io unit := λ w,
  match files w !! path with
  | None => (Raise (IOError path), w)
  | Some _ =>
      (Ok (),
       {| files := delete path (files w);
          clock := clock w; clock_reads := clock_reads w |})
  end.

(** A running program: the world and the lines written to standard
    output so far. *)
Record process : Type := Process {
  proc_world : world;
  stdout : list string
}.

Definition cio (A : Type) : Type := process → result A * process.

#[global] Instance cio_ret : MRet cio := λ A a p, (Ok a, p).

#[global] Instance cio_bind : MBind cio := λ A B f m p,
  match m p with
  | (Ok a, p') => f a p'
  | (Raise e, p') => (Raise e, p')
  end.

(** A computation on the world, run inside a program. *)
Definition run_io {A} (m : io A) : cio A := λ p,
  match m (proc_world p) with
  | (r, w') => (r, {| proc_world := w'; stdout := stdout p |})
  end.

(** [print(line)] *)
Definition print (line : string) : cio unit := λ p,
  (Ok (), {| proc_world := proc_world p; stdout := stdout p ++ [line] |}).

(** The truth value Python gives a receipt field in a condition. *)
Definition truthy (v : receipt_value) : bool :=
  match v with
  | RStr "" => false
  | RStr _ => true
  | RList [] => false
  | RList _ => true
  end.

Definition PROBLEM_LINE : string :=
  "uh-oh... you have a problem! Here are some hints...".

Definition LOOKS_GOOD_LINE : string := "looks good!".

Definition MISSING_LOCAL_HINT : string :=
  "There is a file present in your remote inventory that is missing from your local directory. "
  +:+ "If you moved it or deleted it unintentionally, put it back. "
  +:+ "If you intentionally deleted it, delete the corresponding archive from glacier.".

Definition MISSING_REMOTE_HINT : string :=
  "There is a file present in your local inventory that is missing from your remote directory. "
  +:+ "If you haven't sent the missing file to glacier yet, then upload it. "
  +:+ "If you have uploaded the file, then you need to get an updated remote inventory. "
  +:+ "If you are using an updated remote inventory, try uploading the file again. "
  +:+ "Make sure that you didn't accidentally upload the file to an incorrectly named archive.".

Definition MISMATCHED_HINT : string :=
  "There is a checksum mismatch between a local file and a remote archive. "
  +:+ "Perhaps you uploaded files to an incorrectly named archive. "
  +:+ "Otherwise, your local data or your remote data is corrupted.".

(** [if check_receipt[key]: print(hint)] *)
Definition print_hint_if (check_receipt : gmap string receipt_value)
    (key hint : string) : cio unit :=
  v ← run_io (lift (getitem check_receipt key));
  if truthy v then print hint else mret ().

(** The condition [a or b or c] of the first [if] is evaluated from the
    left and stops at the first true field. *)
Definition print_check_receipt_hints (check_receipt : gmap string receipt_value)
  : cio unit :=
  missing_local ← run_io (lift (getitem check_receipt "missing_local_files"));
  problem ←
    (if truthy missing_local then mret true
     else
       missing_remote ← run_io (lift (getitem check_receipt "missing_remote_files"));
       if truthy missing_remote then mret true
       else
         mismatched ← run_io (lift (getitem check_receipt "mismatched_files"));
         mret (truthy mismatched));
  (if problem : bool then print PROBLEM_LINE else print LOOKS_GOOD_LINE);;
  print_hint_if check_receipt "missing_local_files" MISSING_LOCAL_HINT;;
  print_hint_if check_receipt "missing_remote_files" MISSING_REMOTE_HINT;;
  print_hint_if check_receipt "mismatched_files" MISMATCHED_HINT.

Section Driver.

(** Library code: [os.listdir] and [os.path.isfile] look at the world;
    [json.dump] of an inventory, [json.dump] of a receipt, and
    [json.dumps(_, indent=2)] of a receipt give text. *)
Context (os_path_join : string → string → string).
Context (os_path_abspath : string → string).
Context (os_listdir : world → string → result (list string)).
Context (os_path_isfile : world → string → bool).
Context (json_load : string → result inventory).
Context (json_dump_inventory : inventory → string).
Context (json_dump_receipt : gmap string receipt_value → string).
Context (json_dumps_indent : gmap string receipt_value → string).
Context (calculate_tree_hash : string → string).

Definition get_valid_files (local_dir : string) : io (list string) := λ w,
  match os_listdir w local_dir with
  | Ok names =>
      (Ok (filter (λ f, os_path_isfile w (os_path_join local_dir f) = true
                        ∧ f ∉ EXCLUDE_FILENAMES) names), w)
  | Raise e => (Raise e, w)
  end.

Definition save_check_receipt (local_dir : string)
    (check_receipt : gmap string receipt_value) : io unit :=
  write_file (os_path_join local_dir CHECK_RECEIPT_FILENAME)
    (json_dump_receipt check_receipt).

Definition print_check_receipt (check_receipt : gmap string receipt_value)
  : cio unit :=
  print (json_dumps_indent check_receipt).

(** [main] of [cli.py], after the command line is parsed. *)
Definition main (deep verbose : bool) (local_dir : string) : cio unit :=
  (if deep
   then run_io (os_remove (os_path_join local_dir LOCAL_INVENTORY_FILENAME))
   else mret ());;
  old_local_inventory ←
    run_io (load_inventory os_path_join json_load local_dir LOCAL_INVENTORY_FILENAME);
  valid_filenames ← run_io (get_valid_files local_dir);
  local_inventory ←
    run_io (update_local_inventory os_path_join calculate_tree_hash
              local_dir valid_filenames old_local_inventory);
  run_io (write_file (os_path_join local_dir LOCAL_INVENTORY_FILENAME)
            (json_dump_inventory local_inventory));;
  remote_inventory ←
    run_io (load_inventory os_path_join json_load local_dir REMOTE_INVENTORY_FILENAME);
  missing_local_files ←
    run_io (lift (check_missing_files local_inventory remote_inventory));
  missing_remote_files ←
    run_io (lift (check_missing_files remote_inventory local_inventory));
  mismatched_files ←
    run_io (lift (check_mismatched_files local_inventory remote_inventory));
  check_receipt ←
    run_io (generate_check_receipt os_path_abspath local_dir
              missing_local_files missing_remote_files mismatched_files);
  run_io (save_check_receipt local_dir check_receipt);;
  if verbose
  then print_check_receipt check_receipt;; print_check_receipt_hints check_receipt
  else mret ().

End Driver.

(** The lines [print_check_receipt_hints] prints for a receipt whose
    three lists are [missing_local], [missing_remote] and [mismatched]. *)
Definition hint_lines (missing_local missing_remote mismatched : list string)
  : list string :=
  match missing_local, missing_remote, mismatched with
  | [], [], [] => [LOOKS_GOOD_LINE]
  | _, _, _ =>
      PROBLEM_LINE ::
      match missing_local with [] => [] | _ => [MISSING_LOCAL_HINT] end ++
      match missing_remote with [] => [] | _ => [MISSING_REMOTE_HINT] end ++
      match mismatched with [] => [] | _ => [MISMATCHED_HINT] end
  end.

(** [w'] differs from [w] at most in the files at the paths of [touched]
    and in the number of clock readings taken. *)
Definition same_but (touched : string → Prop) (w w' : world) : Prop :=
  clock w' = clock w ∧
  ∀ path, ¬ touched path → files w' !! path = files w !! path.

(** What a program may do between [p] and [p']: change the files at the
    paths of [touched], read the clock, and add lines to standard output,
    the last only when [verbose]. *)
Definition leaves_alone (touched : string → Prop) (verbose : bool)
    (p p' : process) : Prop :=
  same_but touched (proc_world p) (proc_world p') ∧
  stdout p `prefix_of` stdout p' ∧
  (verbose = false → stdout p' = stdout p).

(** ** More of the small world *)

Definition demo_listdir (w : world) (dir : string) : result (list string) :=
  if decide (dir = "photos")
  then Ok ["a.txt"; "sub"; "local-inventory.json"; "b.txt";
           "remote-inventory.json"; "check-receipt.json"]
  else Raise (IOError dir).

Definition demo_isfile (w : world) (path : string) : bool :=
  match files w !! path with
  | Some _ => true
  | None => false
  end.

Definition demo_dump_inventory (inv : inventory) : string :=
  match inv !! "ArchiveList" with
  | Some [] => "inventory without records"
  | Some (_ :: _) => "inventory-document"
  | None => "not an inventory"
  end.

Definition demo_dump_receipt (receipt : gmap string receipt_value) : string :=
  "receipt-document".

Definition demo_dumps_indent (receipt : gmap string receipt_value) : string :=
  "receipt-document, indented".

(** The directory of [demo_world] after a first run: the receipt and the
    local inventory are there. *)
Definition demo_world_after : world :=
  {| files := {[ "photos/a.txt" := Regular "new bytes of a";
                 "photos/b.txt" := Regular "bytes of b";
                 "photos/local-inventory.json" := Regular "inventory-document";
                 "photos/remote-inventory.json" := Regular "not a document";
                 "photos/check-receipt.json" := Regular "receipt-document" ]};
     clock := demo_clock;
     clock_reads := 0 |}.

(** A directory that has a remote inventory and no local one. *)
Definition demo_world_first_run : world :=
  {| files := {[ "photos/a.txt" := Regular "new bytes of a";
                 "photos/b.txt" := Regular "bytes of b";
                 "photos/remote-inventory.json" := Regular "inventory-document" ]};
     clock := demo_clock;
     clock_reads := 0 |}.

(** [main] in the small world. *)
Definition demo_main (deep verbose : bool) (p : process) : result () * process :=
  main demo_join demo_abspath demo_listdir demo_isfile demo_json_load
    demo_dump_inventory demo_dump_receipt demo_dumps_indent demo_tree_hash
    deep verbose "photos" p.

(** Stands for the parser on a document whose record has no checksum. *)
Definition demo_json_load_bad (content : string) : result inventory :=
  if decide (content = "inventory-document")
  then Ok (inv_of [{[ "ArchiveDescription" := "a.txt" ]}])
  else Raise ValueError.

(** [n] opening brackets: text that is not JSON and, for a large [n], is
    nested deeper than the parser can follow. *)
Definition open_brackets (n : positive) : string :=
  Pos.iter (λ s, "[" +:+ s) "" n.

(** [content] starts with more than [limit] opening brackets. *)
Fixpoint nested_deeper_than (limit : nat) (content : string) : bool :=
  match limit, content with
  | 0, _ => true
  | S limit', String a rest =>
      if decide (String a "" = "[") then nested_deeper_than limit' rest else false
  | S _, EmptyString => false
  end.

(** Stands for the parser with a recursion limit: a document, text nested
    too deep, and other text. *)
Definition demo_json_load_limit (content : string) : result inventory :=
  if decide (content = "inventory-document")
  then Ok (inv_of [rec2 "a.txt" "H1"])
  else if nested_deeper_than 1000 content
       then Raise RecursionError
       else Raise ValueError.

Definition demo_world_nested : world :=
  {| files := {[ "photos/remote-inventory.json" := Regular (open_brackets 100000%positive) ]};
     clock := demo_clock;
     clock_reads := 0 |}.

(** * Properties *)

(** ** The result monad *)

Lemma bind_Ok {A B} (m : result A) (f : A → result B) (b : B) :
  m ≫= f = Ok b ↔ ∃ a, m = Ok a ∧ f a = Ok b.
Proof.
  destruct m as [a|e]; simpl; split.
  - eauto.
  - intros (a' & [= ->] & H). exact H.
  - discriminate.
  - intros (a' & [=] & _).
Qed.

Lemma bind_Raise {A B} (m : result A) (f : A → result B) :
  raises m → raises (m ≫= f).
Proof. intros [e ->]. exists e. reflexivity. Qed.

Lemma raises_not_Ok {A} (m : result A) (a : A) : raises m → m ≠ Ok a.
Proof. intros [e ->]. discriminate. Qed.

Lemma getitem_Ok {V} (m : gmap string V) (k : string) (v : V) :
  getitem m k = Ok v ↔ m !! k = Some v.
Proof. unfold getitem. destruct (m !! k); split; congruence. Qed.

Lemma getitem_Raise {V} (m : gmap string V) (k : string) :
  m !! k = None → getitem m k = Raise (KeyError k).
Proof. unfold getitem. intros ->. reflexivity. Qed.

(** ** Insertion-ordered dicts *)

Lemma dict_get_set_eq (d : pydict) (k v : string) :
  dict_get (dict_set d k v) k = Some v.
Proof.
  induction d as [|[k' v'] d IH]; simpl.
  - rewrite decide_True; done.
  - destruct (decide (k' = k)) as [->|Hne]; simpl.
    + rewrite decide_True; done.
    + rewrite decide_False; done.
Qed.

Lemma dict_get_set_ne (d : pydict) (k k0 v : string) :
  k ≠ k0 → dict_get (dict_set d k v) k0 = dict_get d k0.
Proof.
  intros Hne. induction d as [|[k' v'] d IH]; simpl.
  - rewrite decide_False; done.
  - destruct (decide (k' = k)) as [->|Hk]; simpl.
    + rewrite !decide_False; done.
    + destruct (decide (k' = k0)); done.
Qed.

Lemma dict_get_None (d : pydict) (k : string) :
  dict_get d k = None ↔ k ∉ dict_keys d.
Proof.
  unfold dict_keys. induction d as [|[k' v'] d IH]; simpl.
  - split; [intros _; apply not_elem_of_nil | done].
  - rewrite not_elem_of_cons. destruct (decide (k' = k)) as [->|Hk].
    + split; [discriminate | intros [? _]; done].
    + rewrite IH. split; [intros ?; split; [congruence | done] | intros [_ ?]; done].
Qed.

Lemma dict_get_is_Some (d : pydict) (k : string) :
  is_Some (dict_get d k) ↔ k ∈ dict_keys d.
Proof.
  rewrite <- not_eq_None_Some, dict_get_None.
  split; [apply dec_stable | auto].
Qed.

Lemma dict_contains_true (d : pydict) (k : string) :
  dict_contains d k = true ↔ k ∈ dict_keys d.
Proof.
  rewrite <- dict_get_is_Some. unfold dict_contains.
  destruct (dict_get d k); split; done.
Qed.

Lemma dict_contains_false (d : pydict) (k : string) :
  dict_contains d k = false ↔ k ∉ dict_keys d.
Proof.
  rewrite <- dict_contains_true. destruct (dict_contains d k); split; done.
Qed.

Lemma dict_keys_set (d : pydict) (k v k0 : string) :
  k0 ∈ dict_keys (dict_set d k v) ↔ k0 = k ∨ k0 ∈ dict_keys d.
Proof.
  rewrite <- !dict_get_is_Some.
  destruct (decide (k = k0)) as [->|Hne].
  - rewrite dict_get_set_eq. split; [auto | eauto].
  - rewrite dict_get_set_ne by done. split; [auto | intros [?|?]; congruence].
Qed.

Lemma dict_keys_set_NoDup (d : pydict) (k v : string) :
  NoDup (dict_keys d) → NoDup (dict_keys (dict_set d k v)).
Proof.
  unfold dict_keys. induction d as [|[k' v'] d IH]; simpl; intros Hnd.
  - apply NoDup_singleton.
  - apply NoDup_cons in Hnd as [Hnotin Hnd].
    destruct (decide (k' = k)) as [->|Hk]; simpl.
    + apply NoDup_cons. done.
    + apply NoDup_cons. split; [|auto].
      intros Hin. apply (dict_keys_set d k v k') in Hin as [?|?]; done.
Qed.

Lemma dict_getitem_Ok (d : pydict) (k v : string) :
  dict_getitem d k = Ok v ↔ dict_get d k = Some v.
Proof. unfold dict_getitem. destruct (dict_get d k); split; congruence. Qed.

(** ** The projection *)

Lemma dictify_entries_app (l1 l2 : list entry) (acc : pydict) :
  dictify_entries (l1 ++ l2) acc = dictify_entries l1 acc ≫= dictify_entries l2.
Proof.
  revert acc. induction l1 as [|e l1 IH]; intros acc; simpl; [done|].
  destruct (getitem e "ArchiveDescription") as [k|]; simpl; [|done].
  destruct (getitem e "SHA256TreeHash") as [v|]; simpl; [|done].
  apply IH.
Qed.

Lemma dictify_entries_cons_Ok (e : entry) (l : list entry) (acc d : pydict) :
  dictify_entries (e :: l) acc = Ok d ↔
  ∃ k v, e !! "ArchiveDescription" = Some k ∧ e !! "SHA256TreeHash" = Some v ∧
         dictify_entries l (dict_set acc k v) = Ok d.
Proof.
  simpl. rewrite bind_Ok. split.
  - intros (k & Hk & H). apply bind_Ok in H as (v & Hv & H).
    apply getitem_Ok in Hk, Hv. eauto.
  - intros (k & v & Hk & Hv & H). exists k. split; [by apply getitem_Ok|].
    apply bind_Ok. exists v. split; [by apply getitem_Ok | done].
Qed.

Lemma dictify_entries_returns (l : list entry) (acc : pydict) :
  Forall well_formed l → returns (dictify_entries l acc).
Proof.
  intros Hwf. revert acc. induction Hwf as [|e l [[k Hk] [v Hv]] _ IH]; intros acc.
  - exists acc. done.
  - destruct (IH (dict_set acc k v)) as [d Hd]. exists d.
    apply dictify_entries_cons_Ok. eauto.
Qed.

Lemma dictify_entries_raises (l : list entry) (acc : pydict) (e : entry) :
  e ∈ l → ¬ well_formed e →
  ∃ k, dictify_entries l acc = Raise (KeyError k) ∧
       (k = "ArchiveDescription" ∨ k = "SHA256TreeHash").
Proof.
  intros Hin Hbad. revert acc.
  induction l as [|e' l IH]; intros acc; [by apply elem_of_nil in Hin|].
  simpl.
  destruct (e' !! "ArchiveDescription") as [k|] eqn:Hk;
    [rewrite (proj2 (getitem_Ok _ _ _) Hk) | rewrite (getitem_Raise _ _ Hk)];
    simpl; [|eauto].
  destruct (e' !! "SHA256TreeHash") as [v|] eqn:Hv;
    [rewrite (proj2 (getitem_Ok _ _ _) Hv) | rewrite (getitem_Raise _ _ Hv)];
    simpl; [|eauto].
  apply elem_of_cons in Hin as [->|Hin]; [|by apply IH].
  destruct Hbad. split; eauto.
Qed.

Lemma dictify_entries_get_other (l : list entry) (acc d : pydict) (n : string) :
  dictify_entries l acc = Ok d →
  (∀ e, e ∈ l → e !! "ArchiveDescription" ≠ Some n) →
  dict_get d n = dict_get acc n.
Proof.
  revert acc. induction l as [|e l IH]; intros acc Hd Hno.
  - simpl in Hd. congruence.
  - apply dictify_entries_cons_Ok in Hd as (k & v & Hk & Hv & Hd).
    rewrite (IH _ Hd).
    + apply dict_get_set_ne. intros ->. apply (Hno e); [left | done].
    + intros e' He'. apply Hno. by right.
Qed.

Lemma dictify_entries_keys (l : list entry) (acc d : pydict) (n : string) :
  dictify_entries l acc = Ok d →
  n ∈ dict_keys d ↔
  n ∈ dict_keys acc ∨ ∃ e, e ∈ l ∧ e !! "ArchiveDescription" = Some n.
Proof.
  revert acc. induction l as [|e l IH]; intros acc Hd.
  - simpl in Hd. injection Hd as <-. split; [auto|].
    intros [?|(e & He & _)]; [done | by apply elem_of_nil in He].
  - apply dictify_entries_cons_Ok in Hd as (k & v & Hk & Hv & Hd).
    rewrite (IH _ Hd), dict_keys_set. split.
    + intros [[->|?]|(e' & He' & Hn)]; [right | by left | right].
      * exists e. split; [left | done].
      * exists e'. split; [by right | done].
    + intros [?|(e' & He' & Hn)]; [by left; right|].
      apply elem_of_cons in He' as [->|He'].
      * left; left. congruence.
      * right. eauto.
Qed.

Lemma dictify_entries_NoDup (l : list entry) (acc d : pydict) :
  dictify_entries l acc = Ok d → NoDup (dict_keys acc) → NoDup (dict_keys d).
Proof.
  revert acc. induction l as [|e l IH]; intros acc Hd Hnd.
  - simpl in Hd. congruence.
  - apply dictify_entries_cons_Ok in Hd as (k & v & Hk & Hv & Hd).
    apply (IH _ Hd). by apply dict_keys_set_NoDup.
Qed.

Lemma dictify_inventory_Ok (inv : inventory) (d : pydict) :
  dictify_inventory inv = Ok d ↔
  ∃ l, inv !! "ArchiveList" = Some l ∧ dictify_entries l [] = Ok d.
Proof.
  unfold dictify_inventory. rewrite bind_Ok.
  split; intros (l & Hl & Hd); exists l; split; try done; by apply getitem_Ok.
Qed.

Lemma dictify_inventory_NoDup (inv : inventory) (d : pydict) :
  dictify_inventory inv = Ok d → NoDup (dict_keys d).
Proof.
  intros (l & _ & Hd)%dictify_inventory_Ok.
  apply (dictify_entries_NoDup _ _ _ Hd). apply NoDup_nil_2.
Qed.

(** C5. When several records of an inventory share a name, the projection
    maps the name to the checksum of the last of them in list order, and
    the duplicates raise nothing: with every record carrying its two
    fields, the projection returns. *)
Theorem dictify_inventory_last_wins
    (inv : inventory) (l1 l2 : list entry) (e : entry) (n c : string) :
  inv !! "ArchiveList" = Some (l1 ++ e :: l2) →
  Forall well_formed (l1 ++ e :: l2) →
  e !! "ArchiveDescription" = Some n →
  e !! "SHA256TreeHash" = Some c →
  (∀ e', e' ∈ l2 → e' !! "ArchiveDescription" ≠ Some n) →
  ∃ d, dictify_inventory inv = Ok d ∧ dict_get d n = Some c.
Proof.
  intros Hl Hwf Hn Hc Hlast.
  destruct (dictify_entries_returns _ [] Hwf) as [d Hd].
  exists d. split; [apply dictify_inventory_Ok; eauto|].
  rewrite dictify_entries_app in Hd.
  apply bind_Ok in Hd as (d1 & _ & Hd).
  apply dictify_entries_cons_Ok in Hd as (k & v & Hk & Hv & Hd).
  rewrite (dictify_entries_get_other _ _ _ _ Hd Hlast).
  assert (k = n) as -> by congruence. assert (v = c) as -> by congruence.
  apply dict_get_set_eq.
Qed.

Lemma dictify_inventory_last_wins_witness :
  ∃ d, dictify_inventory
         (inv_of [rec2 "a.txt" "H1"; rec2 "a.txt" "H3"; rec2 "b.txt" "H2"]) = Ok d
       ∧ dict_get d "a.txt" = Some "H3".
Proof.
  apply (dictify_inventory_last_wins _
           [rec2 "a.txt" "H1"] [rec2 "b.txt" "H2"] (rec2 "a.txt" "H3")).
  - reflexivity.
  - repeat constructor; eexists; reflexivity.
  - reflexivity.
  - reflexivity.
  - intros e' ->%list_elem_of_singleton. vm_compute. discriminate.
Defined.

(** C7. A record that lacks the name or the checksum field makes the
    projection raise [KeyError] for that field, whatever the other
    records are; [check_missing_files] and [check_mismatched_files] raise
    as well, with the inventory in either position. *)
Theorem dictify_inventory_malformed_raises
    (inv : inventory) (l : list entry) (e : entry) :
  inv !! "ArchiveList" = Some l →
  e ∈ l →
  e !! "ArchiveDescription" = None ∨ e !! "SHA256TreeHash" = None →
  (∃ k, dictify_inventory inv = Raise (KeyError k) ∧
        (k = "ArchiveDescription" ∨ k = "SHA256TreeHash")) ∧
  ∀ other : inventory,
    raises (check_missing_files inv other) ∧
    raises (check_missing_files other inv) ∧
    raises (check_mismatched_files inv other) ∧
    raises (check_mismatched_files other inv).
Proof.
  intros Hl Hin Hlack.
  assert (∃ k, dictify_inventory inv = Raise (KeyError k) ∧
               (k = "ArchiveDescription" ∨ k = "SHA256TreeHash"))
    as (k & Hraise & Hk).
  { unfold dictify_inventory. rewrite (proj2 (getitem_Ok _ _ _) Hl). simpl.
    apply (dictify_entries_raises l [] e Hin).
    intros [[? Hn] [? Hc]]. destruct Hlack; congruence. }
  split; [eauto|]. intros other.
  unfold check_missing_files, check_mismatched_files. rewrite Hraise.
  repeat split; try (eexists; reflexivity);
    destruct (dictify_inventory other); simpl; eexists; reflexivity.
Qed.

Lemma dictify_inventory_malformed_raises_witness :
  (∃ k, dictify_inventory
          (inv_of [rec2 "a.txt" "H1"; {[ "ArchiveDescription" := "b.txt" ]}])
        = Raise (KeyError k) ∧
        (k = "ArchiveDescription" ∨ k = "SHA256TreeHash")) ∧
  ∀ other : inventory,
    raises (check_missing_files
              (inv_of [rec2 "a.txt" "H1"; {[ "ArchiveDescription" := "b.txt" ]}])
              other) ∧
    raises (check_missing_files other
              (inv_of [rec2 "a.txt" "H1"; {[ "ArchiveDescription" := "b.txt" ]}])) ∧
    raises (check_mismatched_files
              (inv_of [rec2 "a.txt" "H1"; {[ "ArchiveDescription" := "b.txt" ]}])
              other) ∧
    raises (check_mismatched_files other
              (inv_of [rec2 "a.txt" "H1"; {[ "ArchiveDescription" := "b.txt" ]}])).
Proof.
  apply (dictify_inventory_malformed_raises _
           [rec2 "a.txt" "H1"; {[ "ArchiveDescription" := "b.txt" ]}]
           {[ "ArchiveDescription" := "b.txt" ]}).
  - reflexivity.
  - right. left.
  - right. reflexivity.
Defined.

(** ** The reconciler *)

Lemma check_missing_files_Ok (from against : inventory) (df da : pydict) :
  dictify_inventory from = Ok df →
  dictify_inventory against = Ok da →
  check_missing_files from against =
    Ok (filter (λ k, dict_contains df k = false) (dict_keys da)).
Proof. unfold check_missing_files. intros -> ->. reflexivity. Qed.

Lemma elem_of_missing (df da : pydict) (k : string) :
  k ∈ filter (λ k, dict_contains df k = false) (dict_keys da) ↔
  k ∈ dict_keys da ∧ k ∉ dict_keys df.
Proof. rewrite list_elem_of_filter, dict_contains_false. tauto. Qed.

Lemma filter_result_Ok {A} (p : A → result bool) (P : A → Prop)
    `{∀ x, Decision (P x)} (l : list A) :
  (∀ x, x ∈ l → p x = Ok (bool_decide (P x))) →
  filter_result p l = Ok (filter P l).
Proof.
  induction l as [|x l IH]; intros Hp; simpl; [done|].
  rewrite (Hp x) by left. simpl.
  rewrite IH by (intros y Hy; apply Hp; by right). simpl.
  rewrite filter_cons. destruct (decide (P x)) as [HP|HP].
  - by rewrite bool_decide_eq_true_2.
  - by rewrite bool_decide_eq_false_2.
Qed.

Lemma elem_of_keys_intersection (a b : pydict) (k : string) :
  k ∈ keys_intersection a b ↔ k ∈ dict_keys a ∧ k ∈ dict_keys b.
Proof.
  unfold keys_intersection.
  rewrite elem_of_intersection, !elem_of_list_to_set. done.
Qed.

Lemma keys_intersection_comm (a b : pydict) :
  keys_intersection a b = keys_intersection b a.
Proof. unfold keys_intersection. apply intersection_comm_L. Qed.

Lemma check_mismatched_files_Ok (local remote : inventory) (dl dr : pydict) :
  dictify_inventory local = Ok dl →
  dictify_inventory remote = Ok dr →
  check_mismatched_files local remote =
    Ok (filter (λ k, dict_get dl k ≠ dict_get dr k)
          (elements (keys_intersection dl dr))).
Proof.
  unfold check_mismatched_files. intros -> ->. simpl.
  apply filter_result_Ok. intros k Hk.
  apply elem_of_elements, elem_of_keys_intersection in Hk as [Hl Hr].
  apply dict_get_is_Some in Hl as [cl Hl], Hr as [cr Hr].
  unfold dict_getitem. rewrite Hl, Hr. simpl. f_equal.
  destruct (String.eqb_spec cl cr) as [->|Hne]; simpl.
  - rewrite bool_decide_eq_false_2; [done | by intros []].
  - rewrite bool_decide_eq_true_2; [done | congruence].
Qed.

Lemma elem_of_mismatched (dl dr : pydict) (k : string) :
  k ∈ filter (λ k, dict_get dl k ≠ dict_get dr k)
        (elements (keys_intersection dl dr)) ↔
  ∃ cl cr, dict_get dl k = Some cl ∧ dict_get dr k = Some cr ∧ cl ≠ cr.
Proof.
  rewrite list_elem_of_filter, elem_of_elements, elem_of_keys_intersection.
  rewrite <- !dict_get_is_Some. split.
  - intros (Hne & [cl Hl] & [cr Hr]). exists cl, cr. repeat split; congruence.
  - intros (cl & cr & Hl & Hr & Hne). rewrite Hl, Hr.
    repeat split; [congruence | eauto | eauto].
Qed.

Lemma dictify_inventory_has_name (inv : inventory) (l : list entry)
    (d : pydict) (k : string) :
  inv !! "ArchiveList" = Some l →
  dictify_inventory inv = Ok d →
  is_Some (dict_get d k) ↔ ∃ e, e ∈ l ∧ e !! "ArchiveDescription" = Some k.
Proof.
  intros Hl (l' & Hl' & Hd)%dictify_inventory_Ok.
  assert (l' = l) as -> by congruence.
  rewrite dict_get_is_Some, (dictify_entries_keys _ _ _ k Hd). split.
  - intros [Hnil|?]; [by apply elem_of_nil in Hnil | done].
  - by right.
Qed.

(** C2. [check_missing_files from against] returns the names that the
    projection of [against] maps and the projection of [from] does not,
    each once; these are the names borne by a record of [against] and by
    no record of [from].  It returns the empty list exactly when every
    name of the projection of [against] is a name of the projection of
    [from].  It is not symmetric: with the arguments swapped it returns
    names of [from], none of which it returned before. *)
Theorem check_missing_files_spec (from against : inventory)
    (lf la : list entry) (df da : pydict) :
  from !! "ArchiveList" = Some lf →
  against !! "ArchiveList" = Some la →
  dictify_inventory from = Ok df →
  dictify_inventory against = Ok da →
  ∃ res res',
    check_missing_files from against = Ok res ∧
    check_missing_files against from = Ok res' ∧
    NoDup res ∧
    (∀ k, k ∈ res ↔ is_Some (dict_get da k) ∧ dict_get df k = None) ∧
    (∀ k, k ∈ res ↔
          (∃ e, e ∈ la ∧ e !! "ArchiveDescription" = Some k) ∧
          ¬ (∃ e, e ∈ lf ∧ e !! "ArchiveDescription" = Some k)) ∧
    (res = [] ↔ ∀ k, is_Some (dict_get da k) → is_Some (dict_get df k)) ∧
    (∀ k, k ∈ res' ↔ is_Some (dict_get df k) ∧ dict_get da k = None) ∧
    (∀ k, k ∈ res → k ∉ res').
Proof.
  intros Hlf Hla Hf Ha. eexists _, _.
  split; [by apply check_missing_files_Ok|].
  split; [by apply check_missing_files_Ok|].
  assert (∀ (a b : pydict) k,
            k ∈ filter (λ k, dict_contains a k = false) (dict_keys b) ↔
            is_Some (dict_get b k) ∧ dict_get a k = None) as Hmem.
  { intros a b k. by rewrite elem_of_missing, dict_get_is_Some, dict_get_None. }
  split; [|split; [|split; [|split; [|split]]]].
  - apply NoDup_filter. by apply dictify_inventory_NoDup in Ha.
  - apply Hmem.
  - intros k. rewrite Hmem.
    rewrite (dictify_inventory_has_name _ _ _ k Hla Ha).
    rewrite <- (dictify_inventory_has_name _ _ _ k Hlf Hf).
    by rewrite eq_None_not_Some.
  - split.
    + intros Hnil k Hk. apply dec_stable. intros Hnot.
      assert (k ∈ filter (λ k, dict_contains df k = false) (dict_keys da))
        as Hin by (apply Hmem; split; [done | by apply eq_None_not_Some]).
      rewrite Hnil in Hin. by apply elem_of_nil in Hin.
    + intros Hsub. apply elem_of_nil_inv. intros k [Hk Hnone]%Hmem.
      apply Hsub in Hk as [c Hc]. congruence.
  - apply Hmem.
  - intros k [_ Hnone]%Hmem [[c Hc] _]%Hmem. congruence.
Qed.

Lemma check_missing_files_spec_witness :
  (∃ res res',
    check_missing_files (inv_of [rec2 "a.txt" "H1"; rec2 "b.txt" "H2"])
                        (inv_of [rec2 "a.txt" "H1"; rec2 "c.txt" "H3"]) = Ok res ∧
    check_missing_files (inv_of [rec2 "a.txt" "H1"; rec2 "c.txt" "H3"])
                        (inv_of [rec2 "a.txt" "H1"; rec2 "b.txt" "H2"]) = Ok res' ∧
    NoDup res ∧
    (∀ k, k ∈ res ↔
          is_Some (dict_get [("a.txt", "H1"); ("c.txt", "H3")] k) ∧
          dict_get [("a.txt", "H1"); ("b.txt", "H2")] k = None) ∧
    (∀ k, k ∈ res ↔
          (∃ e, e ∈ [rec2 "a.txt" "H1"; rec2 "c.txt" "H3"] ∧
                e !! "ArchiveDescription" = Some k) ∧
          ¬ (∃ e, e ∈ [rec2 "a.txt" "H1"; rec2 "b.txt" "H2"] ∧
                  e !! "ArchiveDescription" = Some k)) ∧
    (res = [] ↔
     ∀ k, is_Some (dict_get [("a.txt", "H1"); ("c.txt", "H3")] k) →
          is_Some (dict_get [("a.txt", "H1"); ("b.txt", "H2")] k)) ∧
    (∀ k, k ∈ res' ↔
          is_Some (dict_get [("a.txt", "H1"); ("b.txt", "H2")] k) ∧
          dict_get [("a.txt", "H1"); ("c.txt", "H3")] k = None) ∧
    (∀ k, k ∈ res → k ∉ res')) ∧
  check_missing_files
    {[ "ArchiveList" :=
         [ {[ "ArchiveDescription" := "a.txt"; "SHA256TreeHash" := "H1" ]};
           {[ "ArchiveDescription" := "b.txt"; "SHA256TreeHash" := "H2" ]} ] ]}
    {[ "ArchiveList" :=
         [ {[ "ArchiveDescription" := "a.txt"; "SHA256TreeHash" := "H1" ]};
           {[ "ArchiveDescription" := "c.txt"; "SHA256TreeHash" := "H3" ]} ] ]}
  = Ok ["c.txt"] ∧
  check_missing_files
    {[ "ArchiveList" :=
         [ {[ "ArchiveDescription" := "a.txt"; "SHA256TreeHash" := "H1" ]};
           {[ "ArchiveDescription" := "c.txt"; "SHA256TreeHash" := "H3" ]} ] ]}
    {[ "ArchiveList" :=
         [ {[ "ArchiveDescription" := "a.txt"; "SHA256TreeHash" := "H1" ]};
           {[ "ArchiveDescription" := "b.txt"; "SHA256TreeHash" := "H2" ]} ] ]}
  = Ok ["b.txt"].
Proof.
  split; [|split; vm_compute; reflexivity].
  apply (check_missing_files_spec
           (inv_of [rec2 "a.txt" "H1"; rec2 "b.txt" "H2"])
           (inv_of [rec2 "a.txt" "H1"; rec2 "c.txt" "H3"])
           [rec2 "a.txt" "H1"; rec2 "b.txt" "H2"]
           [rec2 "a.txt" "H1"; rec2 "c.txt" "H3"]
           [("a.txt", "H1"); ("b.txt", "H2")]
           [("a.txt", "H1"); ("c.txt", "H3")]); reflexivity.
Defined.

(** C3. [check_mismatched_files local remote] returns the names that
    both projections have with checksums that are different strings; so
    it returns no name that one of the projections lacks, and no name
    whose two checksums are the same string. *)
Theorem check_mismatched_files_spec (local remote : inventory) (dl dr : pydict) :
  dictify_inventory local = Ok dl →
  dictify_inventory remote = Ok dr →
  ∃ res,
    check_mismatched_files local remote = Ok res ∧
    (∀ k, k ∈ res ↔
          ∃ cl cr, dict_get dl k = Some cl ∧ dict_get dr k = Some cr ∧ cl ≠ cr) ∧
    (∀ k, k ∈ res → k ∈ dict_keys dl ∧ k ∈ dict_keys dr) ∧
    (∀ k c, dict_get dl k = Some c → dict_get dr k = Some c → k ∉ res).
Proof.
  intros Hl Hr. eexists. split; [by apply check_mismatched_files_Ok|].
  split; [apply elem_of_mismatched|]. split.
  - intros k (cl & cr & Hcl & Hcr & _)%elem_of_mismatched.
    split; apply dict_get_is_Some; eauto.
  - intros k c Hcl Hcr (cl & cr & Hcl' & Hcr' & Hne)%elem_of_mismatched.
    congruence.
Qed.

Lemma check_mismatched_files_spec_witness :
  ∃ res,
    check_mismatched_files
      (inv_of [rec2 "a.txt" "H1"; rec2 "b.txt" "H2"; rec2 "d.txt" "H4"])
      (inv_of [rec2 "a.txt" "H9"; rec2 "c.txt" "H3"; rec2 "d.txt" "H4"]) = Ok res ∧
    (∀ k, k ∈ res ↔
          ∃ cl cr,
            dict_get [("a.txt", "H1"); ("b.txt", "H2"); ("d.txt", "H4")] k = Some cl ∧
            dict_get [("a.txt", "H9"); ("c.txt", "H3"); ("d.txt", "H4")] k = Some cr ∧
            cl ≠ cr) ∧
    (∀ k, k ∈ res →
          k ∈ dict_keys [("a.txt", "H1"); ("b.txt", "H2"); ("d.txt", "H4")] ∧
          k ∈ dict_keys [("a.txt", "H9"); ("c.txt", "H3"); ("d.txt", "H4")]) ∧
    (∀ k c,
       dict_get [("a.txt", "H1"); ("b.txt", "H2"); ("d.txt", "H4")] k = Some c →
       dict_get [("a.txt", "H9"); ("c.txt", "H3"); ("d.txt", "H4")] k = Some c →
       k ∉ res).
Proof.
  apply (check_mismatched_files_spec
           (inv_of [rec2 "a.txt" "H1"; rec2 "b.txt" "H2"; rec2 "d.txt" "H4"])
           (inv_of [rec2 "a.txt" "H9"; rec2 "c.txt" "H3"; rec2 "d.txt" "H4"])).
  - reflexivity.
  - reflexivity.
Defined.

Lemma filter_nil_iff {A} (P : A → Prop) `{∀ x, Decision (P x)} (l : list A) :
  filter P l = [] ↔ ∀ x, x ∈ l → ¬ P x.
Proof.
  split.
  - intros Hnil x Hx HP.
    assert (x ∈ filter P l) as Hin by (by apply list_elem_of_filter).
    rewrite Hnil in Hin. by apply elem_of_nil in Hin.
  - intros Hno. apply elem_of_nil_inv.
    intros x [HP Hx]%list_elem_of_filter. by apply (Hno x).
Qed.

Lemma dict_keys_ext (a b : pydict) (k : string) :
  (∀ k, dict_get a k = dict_get b k) → k ∈ dict_keys a ↔ k ∈ dict_keys b.
Proof. intros Heq. by rewrite <- !dict_get_is_Some, Heq. Qed.

(** C8. Two inventories whose projections map the same names to the same
    checksums are in the clean state: nothing is missing on either side
    and nothing is mismatched.  An inventory compared with itself is the
    particular case of the second part. *)
Theorem identical_projections_clean :
  (∀ (local remote : inventory) (dl dr : pydict),
     dictify_inventory local = Ok dl →
     dictify_inventory remote = Ok dr →
     (∀ k, dict_get dl k = dict_get dr k) →
     check_missing_files local remote = Ok [] ∧
     check_missing_files remote local = Ok [] ∧
     check_mismatched_files local remote = Ok []) ∧
  (∀ (inv : inventory) (d : pydict),
     dictify_inventory inv = Ok d →
     check_missing_files inv inv = Ok [] ∧
     check_mismatched_files inv inv = Ok []).
Proof.
  assert (∀ (local remote : inventory) (dl dr : pydict),
     dictify_inventory local = Ok dl →
     dictify_inventory remote = Ok dr →
     (∀ k, dict_get dl k = dict_get dr k) →
     check_missing_files local remote = Ok [] ∧
     check_missing_files remote local = Ok [] ∧
     check_mismatched_files local remote = Ok []) as Hclean.
  { intros local remote dl dr Hl Hr Heq.
    rewrite (check_missing_files_Ok _ _ _ _ Hl Hr).
    rewrite (check_missing_files_Ok _ _ _ _ Hr Hl).
    rewrite (check_mismatched_files_Ok _ _ _ _ Hl Hr).
    repeat split; f_equal; apply filter_nil_iff; intros k Hk.
    - rewrite dict_contains_false. intros Hnot. apply Hnot.
      by apply (dict_keys_ext dl dr).
    - rewrite dict_contains_false. intros Hnot. apply Hnot.
      by apply (dict_keys_ext dl dr).
    - intros Hne. apply Hne, Heq. }
  split; [exact Hclean|].
  intros inv d Hd. destruct (Hclean inv inv d d Hd Hd) as (? & _ & ?); done.
Qed.

Lemma identical_projections_clean_witness :
  check_missing_files
    (inv_of [rec2 "a.txt" "H1"; rec2 "b.txt" "H2"])
    (inv_of [rec2 "b.txt" "H0"; rec2 "a.txt" "H1"; rec2 "b.txt" "H2"]) = Ok [] ∧
  check_missing_files
    (inv_of [rec2 "b.txt" "H0"; rec2 "a.txt" "H1"; rec2 "b.txt" "H2"])
    (inv_of [rec2 "a.txt" "H1"; rec2 "b.txt" "H2"]) = Ok [] ∧
  check_mismatched_files
    (inv_of [rec2 "a.txt" "H1"; rec2 "b.txt" "H2"])
    (inv_of [rec2 "b.txt" "H0"; rec2 "a.txt" "H1"; rec2 "b.txt" "H2"]) = Ok [].
Proof.
  apply (proj1 identical_projections_clean
           (inv_of [rec2 "a.txt" "H1"; rec2 "b.txt" "H2"])
           (inv_of [rec2 "b.txt" "H0"; rec2 "a.txt" "H1"; rec2 "b.txt" "H2"])
           [("a.txt", "H1"); ("b.txt", "H2")]
           [("b.txt", "H2"); ("a.txt", "H1")]).
  - reflexivity.
  - reflexivity.
  - intros k. simpl.
    destruct (decide ("a.txt" = k)) as [Ha|Ha];
      destruct (decide ("b.txt" = k)) as [Hb|Hb]; try reflexivity.
    rewrite <- Ha in Hb. discriminate Hb.
Defined.

(** C9. Against an inventory [a] with no record, every name of the
    projection of [b] is missing from [a], in the order of the
    projection; nothing is missing from [b]; nothing is mismatched. *)
Theorem empty_inventory_reconciliation (a b : inventory) (db : pydict) :
  a !! "ArchiveList" = Some [] →
  dictify_inventory b = Ok db →
  check_missing_files a b = Ok (dict_keys db) ∧
  check_missing_files b a = Ok [] ∧
  check_mismatched_files a b = Ok [].
Proof.
  intros Ha Hb.
  assert (dictify_inventory a = Ok []) as Hda
    by (apply dictify_inventory_Ok; eauto).
  rewrite (check_missing_files_Ok _ _ _ _ Hda Hb).
  rewrite (check_missing_files_Ok _ _ _ _ Hb Hda).
  rewrite (check_mismatched_files_Ok _ _ _ _ Hda Hb).
  repeat split; f_equal.
  - induction (dict_keys db) as [|k ks IH]; [done|].
    rewrite filter_cons_True by done. by rewrite IH.
  - apply filter_nil_iff. intros k Hk%elem_of_elements.
    apply elem_of_keys_intersection in Hk as [Hk _]. by apply elem_of_nil in Hk.
Qed.

Lemma empty_inventory_reconciliation_witness :
  check_missing_files empty_inventory
    (inv_of [rec2 "a.txt" "H1"; rec2 "c.txt" "H3"]) = Ok ["a.txt"; "c.txt"] ∧
  check_missing_files
    (inv_of [rec2 "a.txt" "H1"; rec2 "c.txt" "H3"]) empty_inventory = Ok [] ∧
  check_mismatched_files empty_inventory
    (inv_of [rec2 "a.txt" "H1"; rec2 "c.txt" "H3"]) = Ok [].
Proof.
  apply (empty_inventory_reconciliation empty_inventory
           (inv_of [rec2 "a.txt" "H1"; rec2 "c.txt" "H3"])
           [("a.txt", "H1"); ("c.txt", "H3")]).
  - reflexivity.
  - reflexivity.
Defined.

(** C10. [check_mismatched_files] returns the same names whichever
    inventory comes first, and returns each name once. *)
Theorem check_mismatched_files_symmetric (a b : inventory) (da db : pydict) :
  dictify_inventory a = Ok da →
  dictify_inventory b = Ok db →
  ∃ res res',
    check_mismatched_files a b = Ok res ∧
    check_mismatched_files b a = Ok res' ∧
    (∀ k, k ∈ res ↔ k ∈ res') ∧
    NoDup res ∧ NoDup res'.
Proof.
  intros Ha Hb. eexists _, _.
  split; [by apply check_mismatched_files_Ok|].
  split; [by apply check_mismatched_files_Ok|].
  split; [|split].
  - intros k. rewrite !elem_of_mismatched. split.
    + intros (ca & cb & ? & ? & ?). exists cb, ca. auto.
    + intros (cb & ca & ? & ? & ?). exists ca, cb. auto.
  - apply NoDup_filter, NoDup_elements.
  - apply NoDup_filter, NoDup_elements.
Qed.

Lemma check_mismatched_files_symmetric_witness :
  ∃ res res',
    check_mismatched_files
      (inv_of [rec2 "a.txt" "H1"; rec2 "b.txt" "H2"; rec2 "d.txt" "H4"])
      (inv_of [rec2 "d.txt" "H5"; rec2 "c.txt" "H3"; rec2 "a.txt" "H9"]) = Ok res ∧
    check_mismatched_files
      (inv_of [rec2 "d.txt" "H5"; rec2 "c.txt" "H3"; rec2 "a.txt" "H9"])
      (inv_of [rec2 "a.txt" "H1"; rec2 "b.txt" "H2"; rec2 "d.txt" "H4"]) = Ok res' ∧
    (∀ k, k ∈ res ↔ k ∈ res') ∧
    NoDup res ∧ NoDup res'.
Proof.
  apply (check_mismatched_files_symmetric
           (inv_of [rec2 "a.txt" "H1"; rec2 "b.txt" "H2"; rec2 "d.txt" "H4"])
           (inv_of [rec2 "d.txt" "H5"; rec2 "c.txt" "H3"; rec2 "a.txt" "H9"])
           [("a.txt", "H1"); ("b.txt", "H2"); ("d.txt", "H4")]
           [("d.txt", "H5"); ("c.txt", "H3"); ("a.txt", "H9")]).
  - reflexivity.
  - reflexivity.
Defined.

(** ** The loader *)

Lemma io_bind_Ok {A B} (m : io A) (f : A → io B) (w w' : world) (a : A) :
  m w = (Ok a, w') → (m ≫= f) w = f a w'.
Proof. intros H. unfold mbind, io_bind. by rewrite H. Qed.

Lemma io_bind_Raise {A B} (m : io A) (f : A → io B) (w w' : world) (e : exn) :
  m w = (Raise e, w') → (m ≫= f) w = (Raise e, w').
Proof. intros H. unfold mbind, io_bind. by rewrite H. Qed.

Lemma open_read_Ok (path content : string) (w : world) :
  files w !! path = Some (Regular content) → open_read path w = (Ok content, w).
Proof. unfold open_read. by intros ->. Qed.

Lemma open_read_Raise (path : string) (w : world) :
  files w !! path = None ∨ files w !! path = Some Unreadable →
  open_read path w = (Raise (IOError path), w).
Proof. unfold open_read. by intros [-> | ->]. Qed.

Lemma load_inventory_absent
    (os_path_join : string → string → string)
    (json_load : string → result inventory)
    (local_dir filename : string) (w : world) :
  files w !! os_path_join local_dir filename = None ∨
  files w !! os_path_join local_dir filename = Some Unreadable →
  load_inventory os_path_join json_load local_dir filename w
  = (Ok empty_inventory, w).
Proof.
  intros Hfile. unfold load_inventory, try_except.
  by rewrite (io_bind_Raise _ _ _ _ _ (open_read_Raise _ _ Hfile)).
Qed.

Lemma load_inventory_readable
    (os_path_join : string → string → string)
    (json_load : string → result inventory)
    (local_dir filename content : string) (w : world) :
  files w !! os_path_join local_dir filename = Some (Regular content) →
  load_inventory os_path_join json_load local_dir filename w
  = (match json_load content with
     | Ok data => Ok data
     | Raise e => if except_IOError_ValueError e then Ok empty_inventory else Raise e
     end, w).
Proof.
  intros Hfile. unfold load_inventory, try_except.
  rewrite (io_bind_Ok _ _ _ _ _ (open_read_Ok _ _ _ Hfile)). unfold lift.
  destruct (json_load content) as [data|e]; [done|].
  by destruct (except_IOError_ValueError e).
Qed.

Lemma load_inventory_world
    (os_path_join : string → string → string)
    (json_load : string → result inventory)
    (local_dir filename : string) (w : world) :
  (load_inventory os_path_join json_load local_dir filename w).2 = w.
Proof.
  destruct (files w !! os_path_join local_dir filename) as [[|content]|] eqn:Hfile.
  - rewrite load_inventory_absent; auto.
  - by rewrite (load_inventory_readable _ _ _ _ content).
  - rewrite load_inventory_absent; auto.
Qed.

Lemma load_inventory_inv
    (os_path_join : string → string → string)
    (json_load : string → result inventory)
    (local_dir filename : string) (w w' : world) (inv : inventory) :
  load_inventory os_path_join json_load local_dir filename w = (Ok inv, w') →
  w' = w ∧
  (inv = empty_inventory ∨
   ∃ content,
     files w !! os_path_join local_dir filename = Some (Regular content) ∧
     json_load content = Ok inv).
Proof.
  destruct (files w !! os_path_join local_dir filename) as [[|content]|] eqn:Hfile.
  - rewrite load_inventory_absent by auto. intros [= <- <-]. auto.
  - rewrite (load_inventory_readable _ _ _ _ content) by done.
    destruct (json_load content) as [data|e] eqn:Hjson.
    + intros [= <- <-]. split; [done|]. right. eauto.
    + destruct (except_IOError_ValueError e); intros [= <- <-]. auto.
  - rewrite load_inventory_absent by auto. intros [= <- <-]. auto.
Qed.

(** C6, as stated, fails: text that is not a document and is nested
    deeper than the recursion limit makes the parser raise
    [RecursionError], which the [except (IOError, ValueError)] clause does
    not catch; the loader raises and returns no inventory. *)
Lemma load_inventory_uncaught_counterexample :
  files demo_world_nested !! demo_join "photos" REMOTE_INVENTORY_FILENAME
    = Some (Regular (open_brackets 100000%positive)) ∧
  ¬ returns (demo_json_load_limit (open_brackets 100000%positive)) ∧
  (load_inventory demo_join demo_json_load_limit
     "photos" REMOTE_INVENTORY_FILENAME demo_world_nested).1
    = Raise RecursionError ∧
  ¬ returns (load_inventory demo_join demo_json_load_limit
               "photos" REMOTE_INVENTORY_FILENAME demo_world_nested).1.
Proof.
  assert (demo_json_load_limit (open_brackets 100000%positive)
          = Raise RecursionError) as Hparse by (vm_compute; reflexivity).
  assert (files demo_world_nested !! demo_join "photos" REMOTE_INVENTORY_FILENAME
          = Some (Regular (open_brackets 100000%positive))) as Hfile
    by reflexivity.
  split; [exact Hfile|]. split; [rewrite Hparse; by intros [? ?]|].
  rewrite (load_inventory_readable _ _ _ _ _ _ Hfile), Hparse. simpl.
  split; [done | by intros [? ?]].
Qed.

(** C6, amended. When the file is missing or cannot be read, or the
    parser raises [ValueError] or [IOError] on its content, the loader
    raises nothing and returns the empty inventory, whose [ArchiveList]
    is the empty list and which has no other key; when the file parses,
    the loader returns the parsed document as it is; any other error of
    the parser is raised to the caller.  The world is never changed. *)
Theorem load_inventory_spec
    (os_path_join : string → string → string)
    (json_load : string → result inventory)
    (local_dir filename : string) (w : world) :
  (files w !! os_path_join local_dir filename = None ∨
   files w !! os_path_join local_dir filename = Some Unreadable ∨
   (∃ content e,
      files w !! os_path_join local_dir filename = Some (Regular content) ∧
      json_load content = Raise e ∧ (e = ValueError ∨ ∃ path, e = IOError path)) →
   ∃ inv,
     load_inventory os_path_join json_load local_dir filename w = (Ok inv, w) ∧
     inv !! "ArchiveList" = Some [] ∧ dom inv = {[ "ArchiveList" ]}) ∧
  (∀ content data,
     files w !! os_path_join local_dir filename = Some (Regular content) →
     json_load content = Ok data →
     load_inventory os_path_join json_load local_dir filename w = (Ok data, w)) ∧
  (∀ content e,
     files w !! os_path_join local_dir filename = Some (Regular content) →
     json_load content = Raise e →
     e ≠ ValueError → (∀ path, e ≠ IOError path) →
     load_inventory os_path_join json_load local_dir filename w = (Raise e, w)).
Proof.
  split; [|split].
  - intros Hcase. exists empty_inventory. split; [|done].
    destruct Hcase as [Hnone|[Hbad|(content & e & Hfile & Hjson & He)]].
    + apply load_inventory_absent. by left.
    + apply load_inventory_absent. by right.
    + rewrite (load_inventory_readable _ _ _ _ _ _ Hfile), Hjson.
      by destruct He as [->|[path ->]].
  - intros content data Hfile Hjson.
    by rewrite (load_inventory_readable _ _ _ _ _ _ Hfile), Hjson.
  - intros content e Hfile Hjson Hv Hio.
    rewrite (load_inventory_readable _ _ _ _ _ _ Hfile), Hjson.
    destruct e as [k|path| |]; simpl; try done.
    by destruct (Hio path).
Qed.

Lemma load_inventory_spec_witness :
  (∃ inv,
     load_inventory demo_join demo_json_load_limit
       "photos" "remote-inventory.json" demo_world = (Ok inv, demo_world) ∧
     inv !! "ArchiveList" = Some [] ∧ dom inv = {[ "ArchiveList" ]}) ∧
  (∃ inv,
     load_inventory demo_join demo_json_load_limit
       "photos" "locked.json" demo_world = (Ok inv, demo_world) ∧
     inv !! "ArchiveList" = Some [] ∧ dom inv = {[ "ArchiveList" ]}) ∧
  (∃ inv,
     load_inventory demo_join demo_json_load_limit
       "photos" "absent.json" demo_world = (Ok inv, demo_world) ∧
     inv !! "ArchiveList" = Some [] ∧ dom inv = {[ "ArchiveList" ]}) ∧
  load_inventory demo_join demo_json_load_limit
    "photos" "local-inventory.json" demo_world
    = (Ok (inv_of [rec2 "a.txt" "H1"]), demo_world) ∧
  load_inventory demo_join demo_json_load_limit
    "photos" "remote-inventory.json" demo_world_nested
    = (Raise RecursionError, demo_world_nested).
Proof.
  split; [|split; [|split; [|split]]].
  - apply (load_inventory_spec demo_join demo_json_load_limit
             "photos" "remote-inventory.json" demo_world).
    right. right. exists "not a document", ValueError.
    split; [reflexivity|]. split; [vm_compute; reflexivity | by left].
  - apply (load_inventory_spec demo_join demo_json_load_limit
             "photos" "locked.json" demo_world).
    right. left. reflexivity.
  - apply (load_inventory_spec demo_join demo_json_load_limit
             "photos" "absent.json" demo_world).
    left. reflexivity.
  - apply (proj1 (proj2
             (load_inventory_spec demo_join demo_json_load_limit
                "photos" "local-inventory.json" demo_world))
             "inventory-document").
    + reflexivity.
    + vm_compute. reflexivity.
  - apply (proj2 (proj2
             (load_inventory_spec demo_join demo_json_load_limit
                "photos" "remote-inventory.json" demo_world_nested))
             (open_brackets 100000%positive) RecursionError).
    + reflexivity.
    + vm_compute. reflexivity.
    + discriminate.
    + discriminate.
Defined.

(** ** The incremental updater *)

Lemma datetime_now_advance (w : world) :
  datetime_now w = (Ok (clock w (clock_reads w)), advance w 1).
Proof.
  unfold datetime_now, advance. do 2 f_equal. lia.
Qed.

Lemma advance_advance (w : world) (n m : nat) :
  advance (advance w n) m = advance w (n + m).
Proof. unfold advance. simpl. f_equal. lia. Qed.

Lemma advance_0 (w : world) : advance w 0 = w.
Proof. destruct w. unfold advance. simpl. f_equal. lia. Qed.

Section Updater.

Context (os_path_join : string → string → string).
Context (calculate_tree_hash : string → string).
Context (local_dir : string) (d : pydict).

Lemma update_loop_spec (filenames : list string) :
  ∀ (archive_list : list entry) (w : world),
    (∀ f, f ∈ filenames → dict_get d f = None →
          ∃ content, files w !! os_path_join local_dir f = Some (Regular content)) →
    ∃ new : list entry,
      update_loop os_path_join calculate_tree_hash local_dir d
        filenames archive_list w
        = (Ok (archive_list ++ new), advance w (length filenames)) ∧
      length new = length filenames ∧
      ∀ i f, filenames !! i = Some f →
        ∃ checksum,
          new !! i = Some (archive_entry f (clock w (clock_reads w + i)) checksum) ∧
          checksum_for os_path_join calculate_tree_hash local_dir d w f checksum.
Proof.
  induction filenames as [|f rest IH]; intros archive_list w Hreadable.
  - exists []. simpl. rewrite app_nil_r, advance_0.
    split; [done|]. split; [done|]. intros i f Hi. by rewrite lookup_nil in Hi.
  - assert (∃ checksum,
        (if dict_contains d f
         then lift (dict_getitem d f)
         else target_file ← open_read (os_path_join local_dir f);
              mret (calculate_tree_hash target_file)) w = (Ok checksum, w) ∧
        checksum_for os_path_join calculate_tree_hash local_dir d w f checksum)
      as (checksum & Hstep & Hsum).
    { unfold dict_contains, dict_getitem, checksum_for.
      destruct (dict_get d f) as [c|] eqn:Hget.
      - exists c. split; [done | by left].
      - destruct (Hreadable f) as [content Hfile]; [left | done |].
        exists (calculate_tree_hash content). split.
        + by rewrite (io_bind_Ok _ _ _ _ _ (open_read_Ok _ _ _ Hfile)).
        + right. eauto. }
    destruct (IH (archive_list ++ [archive_entry f (clock w (clock_reads w)) checksum])
                (advance w 1)) as (new & Hloop & Hlen & Hnew).
    { intros f' Hf'. apply Hreadable. by right. }
    exists (archive_entry f (clock w (clock_reads w)) checksum :: new).
    split; [|split].
    + simpl. rewrite (io_bind_Ok _ _ _ _ _ Hstep).
      rewrite (io_bind_Ok _ _ _ _ _ (datetime_now_advance w)).
      rewrite Hloop, <- app_assoc, advance_advance. reflexivity.
    + simpl. by rewrite Hlen.
    + intros [|i] f' Hi; simpl in Hi.
      * injection Hi as <-. exists checksum. rewrite Nat.add_0_r. done.
      * destruct (Hnew i f' Hi) as (c' & Hc' & Hsum').
        exists c'. split; [|exact Hsum'].
        rewrite lookup_cons_ne_0 by done. simpl in *.
        rewrite Hc'. do 3 f_equal. lia.
Qed.

End Updater.

Lemma archive_entry_name (f ts c : string) :
  archive_entry f ts c !! "ArchiveDescription" = Some f.
Proof. reflexivity. Qed.

Lemma archive_entry_checksum (f ts c : string) :
  archive_entry f ts c !! "SHA256TreeHash" = Some c.
Proof. reflexivity. Qed.

Lemma archive_entry_date (f ts c : string) :
  archive_entry f ts c !! "CreationDate" = Some ts.
Proof. reflexivity. Qed.

Lemma archive_entry_dom (f ts c : string) :
  dom (archive_entry f ts c)
  = {[ "ArchiveDescription"; "CreationDate"; "SHA256TreeHash" ]}.
Proof. reflexivity. Qed.

(** C1. Given a previous inventory whose projection is [d] and filenames
    whose uncached files can be read, [update_local_inventory] returns a
    new inventory that holds nothing but an [ArchiveList] with one record
    per filename, in order.  Record [i] has exactly the three fields:
    its [ArchiveDescription] is filename [i]; its [CreationDate] is the
    reading of the clock taken for it during the call, the [i]-th after
    the call began; its [SHA256TreeHash] is the checksum [d] gives when
    the filename is a key of [d], whatever the file holds now, and the
    tree hash of the file's content otherwise.  Every record is named
    after a filename of the input.  The files are as before and the clock
    has been read once per filename. *)
Theorem update_local_inventory_spec
    (os_path_join : string → string → string)
    (calculate_tree_hash : string → string)
    (local_dir : string) (local_filenames : list string)
    (old_local_inventory : inventory) (d : pydict) (w : world) :
  dictify_inventory old_local_inventory = Ok d →
  (∀ f, f ∈ local_filenames → dict_get d f = None →
        ∃ content, files w !! os_path_join local_dir f = Some (Regular content)) →
  ∃ (inv : inventory) (archive_list : list entry) (w' : world),
    update_local_inventory os_path_join calculate_tree_hash
      local_dir local_filenames old_local_inventory w = (Ok inv, w') ∧
    files w' = files w ∧ clock w' = clock w ∧
    clock_reads w' = clock_reads w + length local_filenames ∧
    inv !! "ArchiveList" = Some archive_list ∧
    dom inv = {[ "ArchiveList" ]} ∧
    length archive_list = length local_filenames ∧
    (∀ i f, local_filenames !! i = Some f →
       ∃ e checksum,
         archive_list !! i = Some e ∧
         e !! "ArchiveDescription" = Some f ∧
         e !! "CreationDate" = Some (clock w (clock_reads w + i)) ∧
         e !! "SHA256TreeHash" = Some checksum ∧
         dom e = {[ "ArchiveDescription"; "CreationDate"; "SHA256TreeHash" ]} ∧
         (dict_get d f = Some checksum ∨
          (dict_get d f = None ∧
           ∃ content,
             files w !! os_path_join local_dir f = Some (Regular content) ∧
             checksum = calculate_tree_hash content))) ∧
    (∀ e, e ∈ archive_list →
       ∃ f, f ∈ local_filenames ∧ e !! "ArchiveDescription" = Some f).
Proof.
  intros Hd Hreadable.
  destruct (update_loop_spec os_path_join calculate_tree_hash local_dir d
              local_filenames [] w Hreadable) as (new & Hloop & Hlen & Hnew).
  exists (inv_of new), new, (advance w (length local_filenames)).
  split; [|split; [done|split; [done|split; [done|split; [done|split; [done|]]]]]].
  - unfold update_local_inventory, tqdm.
    rewrite (io_bind_Ok (lift (dictify_inventory old_local_inventory)) _ w w d)
      by (unfold lift; by rewrite Hd).
    rewrite (io_bind_Ok _ _ _ _ _ Hloop). reflexivity.
  - split; [exact Hlen|]. split.
    + intros i f Hf. destruct (Hnew i f Hf) as (c & Hc & Hsum).
      exists (archive_entry f (clock w (clock_reads w + i)) c), c.
      split; [exact Hc|].
      split; [apply archive_entry_name|]. split; [apply archive_entry_date|].
      split; [apply archive_entry_checksum|]. split; [apply archive_entry_dom|].
      exact Hsum.
    + intros e [i Hi]%list_elem_of_lookup.
      destruct (lookup_lt_is_Some_2 local_filenames i) as [f Hf].
      { rewrite <- Hlen. by apply lookup_lt_Some in Hi. }
      exists f. split; [apply list_elem_of_lookup; eauto|].
      destruct (Hnew i f Hf) as (c & Hc & _).
      rewrite Hi in Hc. injection Hc as ->. reflexivity.
Qed.

Lemma update_local_inventory_spec_witness :
  (∃ (inv : inventory) (archive_list : list entry) (w' : world),
    update_local_inventory demo_join demo_tree_hash "photos" ["a.txt"; "b.txt"]
      (inv_of [archive_entry "a.txt" "2024-04-30 08:00:00" "stale-H1";
               archive_entry "gone.txt" "2024-04-30 08:00:01" "H7"])
      demo_world
      = (Ok inv, w') ∧
    files w' = files demo_world ∧ clock w' = clock demo_world ∧
    clock_reads w' = clock_reads demo_world + length ["a.txt"; "b.txt"] ∧
    inv !! "ArchiveList" = Some archive_list ∧
    dom inv = {[ "ArchiveList" ]} ∧
    length archive_list = length ["a.txt"; "b.txt"] ∧
    (∀ i f, ["a.txt"; "b.txt"] !! i = Some f →
       ∃ e checksum,
         archive_list !! i = Some e ∧
         e !! "ArchiveDescription" = Some f ∧
         e !! "CreationDate"
           = Some (clock demo_world (clock_reads demo_world + i)) ∧
         e !! "SHA256TreeHash" = Some checksum ∧
         dom e = {[ "ArchiveDescription"; "CreationDate"; "SHA256TreeHash" ]} ∧
         (dict_get [("a.txt", "stale-H1"); ("gone.txt", "H7")] f = Some checksum ∨
          (dict_get [("a.txt", "stale-H1"); ("gone.txt", "H7")] f = None ∧
           ∃ content,
             files demo_world !! demo_join "photos" f = Some (Regular content) ∧
             checksum = demo_tree_hash content))) ∧
    (∀ e, e ∈ archive_list →
       ∃ f, f ∈ ["a.txt"; "b.txt"] ∧ e !! "ArchiveDescription" = Some f)) ∧
  (update_local_inventory demo_join demo_tree_hash "photos" ["a.txt"; "b.txt"]
     (inv_of [archive_entry "a.txt" "2024-04-30 08:00:00" "stale-H1";
              archive_entry "gone.txt" "2024-04-30 08:00:01" "H7"])
     demo_world).1
  = Ok {[ "ArchiveList" :=
            [ {[ "ArchiveDescription" := "a.txt";
                 "CreationDate" := "2024-05-01 10:00:00";
                 "SHA256TreeHash" := "stale-H1" ]};
              {[ "ArchiveDescription" := "b.txt";
                 "CreationDate" := "2024-05-01 10:00:07";
                 "SHA256TreeHash" := "hash-of-bytes of b" ]} ] ]}.
Proof.
  split.
  - apply (update_local_inventory_spec demo_join demo_tree_hash "photos"
             ["a.txt"; "b.txt"]
             (inv_of [archive_entry "a.txt" "2024-04-30 08:00:00" "stale-H1";
                      archive_entry "gone.txt" "2024-04-30 08:00:01" "H7"])
             [("a.txt", "stale-H1"); ("gone.txt", "H7")] demo_world).
    + reflexivity.
    + intros f Hf Hnone.
      apply elem_of_cons in Hf as [->|Hf]; [discriminate Hnone|].
      apply list_elem_of_singleton in Hf as ->.
      exists "bytes of b". reflexivity.
  - vm_compute. reflexivity.
Defined.

(** The run of the witness, evaluated: the cached checksum of [a.txt] is
    kept although the file has other content now, [b.txt] is hashed, and
    [gone.txt] is dropped. *)
Example update_local_inventory_run :
  (update_local_inventory demo_join demo_tree_hash "photos" ["a.txt"; "b.txt"]
     (inv_of [archive_entry "a.txt" "2024-04-30 08:00:00" "stale-H1";
              archive_entry "gone.txt" "2024-04-30 08:00:01" "H7"])
     demo_world).1
  = Ok (inv_of [archive_entry "a.txt" "2024-05-01 10:00:00" "stale-H1";
                archive_entry "b.txt" "2024-05-01 10:00:07" "hash-of-bytes of b"]).
Proof. vm_compute. reflexivity. Qed.

(** An uncached file that cannot be read makes the updater raise. *)
Example update_local_inventory_unreadable :
  (update_local_inventory demo_join demo_tree_hash "photos" ["a.txt"; "c.txt"]
     empty_inventory demo_world).1
  = Raise (IOError "photos/c.txt").
Proof. vm_compute. reflexivity. Qed.

(** ** The receipt *)

(** C4, as stated, fails: the record has no field [directory],
    [missing_local], [missing_remote] or [mismatched]; the field names of
    the claim are not the keys of the record. *)
Lemma generate_check_receipt_fields_counterexample :
  ¬ ∃ receipt,
      (generate_check_receipt demo_abspath "photos" ["c.txt"] ["b.txt"] []
         demo_world).1 = Ok receipt ∧
      dom receipt =
        ({[ "directory"; "missing_local"; "missing_remote"; "mismatched";
            "timestamp" ]} : gset string).
Proof.
  intros (receipt & Hrun & Hdom).
  injection Hrun as <-.
  assert ("directory" ∈ ({[ "directory"; "missing_local"; "missing_remote";
                           "mismatched"; "timestamp" ]} : gset string)) as Hin
    by (rewrite !elem_of_union, !elem_of_singleton; tauto).
  rewrite <- Hdom in Hin. apply elem_of_dom in Hin as [v Hv].
  vm_compute in Hv. discriminate Hv.
Qed.

(** C4, amended. The receipt has exactly the fields [local_dir],
    [missing_local_files], [missing_remote_files], [mismatched_files] and
    [timestamp]: [local_dir] holds the absolute path of the directory, the
    three lists are the arguments, unchanged, and [timestamp] holds the
    reading of the clock taken by the call. *)
Theorem generate_check_receipt_spec
    (os_path_abspath : string → string) (local_dir : string)
    (missing_local_files missing_remote_files mismatched_files : list string)
    (w : world) :
  ∃ receipt,
    generate_check_receipt os_path_abspath local_dir
      missing_local_files missing_remote_files mismatched_files w
      = (Ok receipt, advance w 1) ∧
    dom receipt =
      {[ "local_dir"; "missing_local_files"; "missing_remote_files";
         "mismatched_files"; "timestamp" ]} ∧
    receipt !! "local_dir" = Some (RStr (os_path_abspath local_dir)) ∧
    receipt !! "missing_local_files" = Some (RList missing_local_files) ∧
    receipt !! "missing_remote_files" = Some (RList missing_remote_files) ∧
    receipt !! "mismatched_files" = Some (RList mismatched_files) ∧
    receipt !! "timestamp" = Some (RStr (clock w (clock_reads w))).
Proof.
  eexists. split.
  - unfold generate_check_receipt.
    rewrite (io_bind_Ok _ _ _ _ _ (datetime_now_advance w)). reflexivity.
  - repeat split; reflexivity.
Qed.

(** * Further properties of the module *)

(** ** The projection, continued *)

Lemma dictify_entries_origin (l : list entry) (acc d : pydict) (n c : string) :
  dictify_entries l acc = Ok d →
  dict_get d n = Some c →
  dict_get acc n = Some c ∨
  ∃ e, e ∈ l ∧ e !! "ArchiveDescription" = Some n ∧ e !! "SHA256TreeHash" = Some c.
Proof.
  revert acc. induction l as [|e l IH]; intros acc Hd Hget.
  - simpl in Hd. injection Hd as <-. by left.
  - apply dictify_entries_cons_Ok in Hd as (k & v & Hk & Hv & Hd).
    destruct (IH _ Hd Hget) as [Hacc|(e' & He' & Hn & Hc)].
    + destruct (decide (k = n)) as [->|Hne].
      * rewrite dict_get_set_eq in Hacc. injection Hacc as ->.
        right. exists e. split; [left | done].
      * rewrite dict_get_set_ne in Hacc by done. by left.
    + right. exists e'. split; [by right | done].
Qed.

(** X1. The keys of the projection are the names of the records, each
    key once, and every checksum of the projection is the checksum of a
    record of that name. *)
Theorem dictify_inventory_keys (inv : inventory) (l : list entry) (d : pydict) :
  inv !! "ArchiveList" = Some l →
  dictify_inventory inv = Ok d →
  NoDup (dict_keys d) ∧
  (∀ n, n ∈ dict_keys d ↔ ∃ e, e ∈ l ∧ e !! "ArchiveDescription" = Some n) ∧
  (∀ n c, dict_get d n = Some c →
     ∃ e, e ∈ l ∧ e !! "ArchiveDescription" = Some n ∧
          e !! "SHA256TreeHash" = Some c).
Proof.
  intros Hl Hd. split; [by apply (dictify_inventory_NoDup inv)|].
  apply dictify_inventory_Ok in Hd as (l' & Hl' & Hd).
  assert (l' = l) as -> by congruence.
  split.
  - intros n. rewrite (dictify_entries_keys _ _ _ n Hd). split.
    + intros [Hnil|?]; [by apply elem_of_nil in Hnil | done].
    + by right.
  - intros n c Hget.
    destruct (dictify_entries_origin _ _ _ _ _ Hd Hget) as [Hnil|?]; [|done].
    discriminate Hnil.
Qed.

Lemma dictify_inventory_keys_witness :
  NoDup (dict_keys [("a.txt", "H3"); ("b.txt", "H2")]) ∧
  (∀ n, n ∈ dict_keys [("a.txt", "H3"); ("b.txt", "H2")] ↔
        ∃ e, e ∈ [rec2 "a.txt" "H1"; rec2 "b.txt" "H2"; rec2 "a.txt" "H3"] ∧
             e !! "ArchiveDescription" = Some n) ∧
  (∀ n c, dict_get [("a.txt", "H3"); ("b.txt", "H2")] n = Some c →
     ∃ e, e ∈ [rec2 "a.txt" "H1"; rec2 "b.txt" "H2"; rec2 "a.txt" "H3"] ∧
          e !! "ArchiveDescription" = Some n ∧ e !! "SHA256TreeHash" = Some c).
Proof.
  apply (dictify_inventory_keys
           (inv_of [rec2 "a.txt" "H1"; rec2 "b.txt" "H2"; rec2 "a.txt" "H3"])).
  - reflexivity.
  - reflexivity.
Defined.

Lemma dictify_entries_same_fields (l l' : list entry) (acc : pydict) :
  Forall2 (λ e e', e !! "ArchiveDescription" = e' !! "ArchiveDescription" ∧
                   e !! "SHA256TreeHash" = e' !! "SHA256TreeHash") l l' →
  dictify_entries l acc = dictify_entries l' acc.
Proof.
  intros Hsame. revert acc.
  induction Hsame as [|e e' l l' [Hn Hc] _ IH]; intros acc; simpl; [done|].
  unfold getitem. rewrite Hn, Hc.
  destruct (e' !! "ArchiveDescription"); simpl; [|done].
  destruct (e' !! "SHA256TreeHash"); simpl; [|done].
  apply IH.
Qed.

(** X2. The projection reads the name and the checksum of a record and
    nothing else: inventories whose records agree, one by one, on these
    two fields have the same projection, or raise the same error, and
    the reconciler cannot tell them apart.  The creation date takes no
    part in a comparison. *)
Theorem projection_reads_two_fields (inv inv' : inventory) (l l' : list entry) :
  inv !! "ArchiveList" = Some l →
  inv' !! "ArchiveList" = Some l' →
  Forall2 (λ e e', e !! "ArchiveDescription" = e' !! "ArchiveDescription" ∧
                   e !! "SHA256TreeHash" = e' !! "SHA256TreeHash") l l' →
  dictify_inventory inv = dictify_inventory inv' ∧
  ∀ other : inventory,
    check_missing_files inv other = check_missing_files inv' other ∧
    check_missing_files other inv = check_missing_files other inv' ∧
    check_mismatched_files inv other = check_mismatched_files inv' other ∧
    check_mismatched_files other inv = check_mismatched_files other inv'.
Proof.
  intros Hl Hl' Hsame.
  assert (dictify_inventory inv = dictify_inventory inv') as Heq.
  { unfold dictify_inventory, getitem. rewrite Hl, Hl'. simpl.
    by apply dictify_entries_same_fields. }
  split; [exact Heq|]. intros other.
  unfold check_missing_files, check_mismatched_files. by rewrite Heq.
Qed.

Lemma projection_reads_two_fields_witness :
  dictify_inventory
    (inv_of [archive_entry "a.txt" "2024-04-30 08:00:00" "H1"])
  = dictify_inventory
      (inv_of [archive_entry "a.txt" "2024-05-01 10:00:00" "H1"]) ∧
  ∀ other : inventory,
    check_missing_files
      (inv_of [archive_entry "a.txt" "2024-04-30 08:00:00" "H1"]) other
    = check_missing_files
        (inv_of [archive_entry "a.txt" "2024-05-01 10:00:00" "H1"]) other ∧
    check_missing_files other
      (inv_of [archive_entry "a.txt" "2024-04-30 08:00:00" "H1"])
    = check_missing_files other
        (inv_of [archive_entry "a.txt" "2024-05-01 10:00:00" "H1"]) ∧
    check_mismatched_files
      (inv_of [archive_entry "a.txt" "2024-04-30 08:00:00" "H1"]) other
    = check_mismatched_files
        (inv_of [archive_entry "a.txt" "2024-05-01 10:00:00" "H1"]) other ∧
    check_mismatched_files other
      (inv_of [archive_entry "a.txt" "2024-04-30 08:00:00" "H1"])
    = check_mismatched_files other
        (inv_of [archive_entry "a.txt" "2024-05-01 10:00:00" "H1"]).
Proof.
  apply (projection_reads_two_fields _ _
           [archive_entry "a.txt" "2024-04-30 08:00:00" "H1"]
           [archive_entry "a.txt" "2024-05-01 10:00:00" "H1"]).
  - reflexivity.
  - reflexivity.
  - repeat constructor.
Defined.

(** ** The reconciler, continued *)

(** X3. The reconciler sorts the names of the remote projection into
    three classes that exclude each other: missing locally, mismatched,
    and present locally with the same checksum.  In particular no name is
    reported both missing and mismatched. *)
Theorem reconciliation_partition
    (local remote : inventory) (dl dr : pydict) (missing mismatched : list string) :
  dictify_inventory local = Ok dl →
  dictify_inventory remote = Ok dr →
  check_missing_files local remote = Ok missing →
  check_mismatched_files local remote = Ok mismatched →
  (∀ k, k ∈ dict_keys dr ↔
        k ∈ missing ∨ k ∈ mismatched ∨
        ∃ c, dict_get dl k = Some c ∧ dict_get dr k = Some c) ∧
  (∀ k, k ∈ missing → k ∉ mismatched) ∧
  (∀ k, k ∈ missing → dict_get dl k = None) ∧
  (∀ k c, k ∈ mismatched → dict_get dl k = Some c → dict_get dr k ≠ Some c).
Proof.
  intros Hl Hr Hmiss Hmism.
  rewrite (check_missing_files_Ok _ _ _ _ Hl Hr) in Hmiss. injection Hmiss as <-.
  rewrite (check_mismatched_files_Ok _ _ _ _ Hl Hr) in Hmism. injection Hmism as <-.
  split; [|split; [|split]].
  - intros k. rewrite elem_of_missing, elem_of_mismatched. split.
    + intros Hk. destruct (dict_get dl k) as [cl|] eqn:Hcl.
      * apply dict_get_is_Some in Hk as [cr Hcr]. right.
        destruct (decide (cl = cr)) as [->|Hne]; [right; eauto|].
        left. exists cl, cr. done.
      * left. split; [done | by apply dict_get_None].
    + intros [[? _]|[(cl & cr & _ & Hcr & _)|(c & _ & Hcr)]];
        [done | apply dict_get_is_Some; eauto ..].
  - intros k [_ Hno]%elem_of_missing (cl & cr & Hcl & _)%elem_of_mismatched.
    apply Hno, dict_get_is_Some. eauto.
  - intros k [_ Hno]%elem_of_missing. by apply dict_get_None.
  - intros k c (cl & cr & Hcl & Hcr & Hne)%elem_of_mismatched Hc. congruence.
Qed.

Lemma reconciliation_partition_witness :
  (∀ k, k ∈ dict_keys [("a.txt", "H9"); ("c.txt", "H3"); ("d.txt", "H4")] ↔
        k ∈ ["c.txt"] ∨ k ∈ ["a.txt"] ∨
        ∃ c, dict_get [("a.txt", "H1"); ("b.txt", "H2"); ("d.txt", "H4")] k = Some c ∧
             dict_get [("a.txt", "H9"); ("c.txt", "H3"); ("d.txt", "H4")] k = Some c) ∧
  (∀ k, k ∈ ["c.txt"] → k ∉ ["a.txt"]) ∧
  (∀ k, k ∈ ["c.txt"] →
        dict_get [("a.txt", "H1"); ("b.txt", "H2"); ("d.txt", "H4")] k = None) ∧
  (∀ k c, k ∈ ["a.txt"] →
     dict_get [("a.txt", "H1"); ("b.txt", "H2"); ("d.txt", "H4")] k = Some c →
     dict_get [("a.txt", "H9"); ("c.txt", "H3"); ("d.txt", "H4")] k ≠ Some c).
Proof.
  apply (reconciliation_partition
           (inv_of [rec2 "a.txt" "H1"; rec2 "b.txt" "H2"; rec2 "d.txt" "H4"])
           (inv_of [rec2 "a.txt" "H9"; rec2 "c.txt" "H3"; rec2 "d.txt" "H4"])).
  - reflexivity.
  - reflexivity.
  - reflexivity.
  - vm_compute. reflexivity.
Defined.

(** X4. The clean state identifies the projections: when nothing is
    missing on either side and nothing is mismatched, the two projections
    map the same names to the same checksums. *)
Theorem clean_state_identical_projections
    (local remote : inventory) (dl dr : pydict) :
  dictify_inventory local = Ok dl →
  dictify_inventory remote = Ok dr →
  check_missing_files local remote = Ok [] →
  check_missing_files remote local = Ok [] →
  check_mismatched_files local remote = Ok [] →
  ∀ k, dict_get dl k = dict_get dr k.
Proof.
  intros Hl Hr Hml Hmr Hmm k.
  rewrite (check_missing_files_Ok _ _ _ _ Hl Hr) in Hml. injection Hml as Hml.
  rewrite (check_missing_files_Ok _ _ _ _ Hr Hl) in Hmr. injection Hmr as Hmr.
  rewrite (check_mismatched_files_Ok _ _ _ _ Hl Hr) in Hmm. injection Hmm as Hmm.
  destruct (dict_get dl k) as [cl|] eqn:Hcl;
    destruct (dict_get dr k) as [cr|] eqn:Hcr; [| | |done].
  - destruct (decide (cl = cr)) as [->|Hne]; [done|].
    assert (k ∈ filter (λ k, dict_get dl k ≠ dict_get dr k)
                  (elements (keys_intersection dl dr))) as Hin
      by (apply elem_of_mismatched; eauto).
    rewrite Hmm in Hin. by apply elem_of_nil in Hin.
  - assert (k ∈ filter (λ k, dict_contains dr k = false) (dict_keys dl)) as Hin.
    { apply elem_of_missing. split; [apply dict_get_is_Some; eauto|].
      by apply dict_get_None. }
    rewrite Hmr in Hin. by apply elem_of_nil in Hin.
  - assert (k ∈ filter (λ k, dict_contains dl k = false) (dict_keys dr)) as Hin.
    { apply elem_of_missing. split; [apply dict_get_is_Some; eauto|].
      by apply dict_get_None. }
    rewrite Hml in Hin. by apply elem_of_nil in Hin.
Qed.

Lemma clean_state_identical_projections_witness :
  dict_get [("a.txt", "H1"); ("b.txt", "H2")] "b.txt"
  = dict_get [("b.txt", "H2"); ("a.txt", "H1")] "b.txt".
Proof.
  apply (clean_state_identical_projections
           (inv_of [rec2 "a.txt" "H1"; rec2 "b.txt" "H2"])
           (inv_of [rec2 "b.txt" "H0"; rec2 "a.txt" "H1"; rec2 "b.txt" "H2"])
           [("a.txt", "H1"); ("b.txt", "H2")]
           [("b.txt", "H2"); ("a.txt", "H1")]).
  - reflexivity.
  - reflexivity.
  - reflexivity.
  - reflexivity.
  - vm_compute. reflexivity.
Defined.

(** ** The incremental updater, continued *)

Section UpdaterLoop.

Context (os_path_join : string → string → string).
Context (calculate_tree_hash : string → string).
Context (local_dir : string) (d : pydict).

(** The two outcomes of obtaining the checksum of [f]: a checksum, from
    the cache or from the file, or [IOError] for an uncached file that
    cannot be read.  The world is the same afterwards. *)
Lemma checksum_step_cases (f : string) (w : world) :
  (∃ c,
     (if dict_contains d f
      then lift (dict_getitem d f)
      else target_file ← open_read (os_path_join local_dir f);
           mret (calculate_tree_hash target_file)) w = (Ok c, w) ∧
     checksum_for os_path_join calculate_tree_hash local_dir d w f c) ∨
  ((if dict_contains d f
    then lift (dict_getitem d f)
    else target_file ← open_read (os_path_join local_dir f);
         mret (calculate_tree_hash target_file)) w
     = (Raise (IOError (os_path_join local_dir f)), w) ∧
   dict_get d f = None ∧
   ∀ content, files w !! os_path_join local_dir f ≠ Some (Regular content)).
Proof.
  unfold dict_contains, dict_getitem, checksum_for.
  destruct (dict_get d f) as [c|] eqn:Hget.
  - left. exists c. split; [done | by left].
  - destruct (files w !! os_path_join local_dir f) as [[|content]|] eqn:Hfile.
    + right. split; [|done].
      apply io_bind_Raise, open_read_Raise. by right.
    + left. exists (calculate_tree_hash content). split.
      * by rewrite (io_bind_Ok _ _ _ _ _ (open_read_Ok _ _ _ Hfile)).
      * right. eauto.
    + right. split; [|done].
      apply io_bind_Raise, open_read_Raise. by left.
Qed.

Lemma update_loop_cons_Ok (f : string) (rest : list string)
    (archive_list : list entry) (w : world) (c : string) :
  (if dict_contains d f
   then lift (dict_getitem d f)
   else target_file ← open_read (os_path_join local_dir f);
        mret (calculate_tree_hash target_file)) w = (Ok c, w) →
  update_loop os_path_join calculate_tree_hash local_dir d (f :: rest) archive_list w
  = update_loop os_path_join calculate_tree_hash local_dir d rest
      (archive_list ++ [archive_entry f (clock w (clock_reads w)) c]) (advance w 1).
Proof.
  intros Hstep. simpl. rewrite (io_bind_Ok _ _ _ _ _ Hstep).
  by rewrite (io_bind_Ok _ _ _ _ _ (datetime_now_advance w)).
Qed.

Lemma update_loop_cons_Raise (f : string) (rest : list string)
    (archive_list : list entry) (w : world) (e : exn) :
  (if dict_contains d f
   then lift (dict_getitem d f)
   else target_file ← open_read (os_path_join local_dir f);
        mret (calculate_tree_hash target_file)) w = (Raise e, w) →
  update_loop os_path_join calculate_tree_hash local_dir d (f :: rest) archive_list w
  = (Raise e, w).
Proof. intros Hstep. simpl. by rewrite (io_bind_Raise _ _ _ _ _ Hstep). Qed.

Lemma update_loop_frame (filenames : list string) :
  ∀ (archive_list : list entry) (w : world),
    ∃ n : nat,
      (n ≤ length filenames)%nat ∧
      (update_loop os_path_join calculate_tree_hash local_dir d
         filenames archive_list w).2 = advance w n.
Proof.
  induction filenames as [|f rest IH]; intros archive_list w.
  - exists 0. split; [done|]. by rewrite advance_0.
  - destruct (checksum_step_cases f w) as [(c & Hstep & _)|(Hstep & _)].
    + rewrite (update_loop_cons_Ok _ _ _ _ _ Hstep).
      destruct (IH (archive_list ++ [archive_entry f (clock w (clock_reads w)) c])
                  (advance w 1)) as (n & Hn & ->).
      exists (1 + n). split; [simpl; lia|]. apply advance_advance.
    + rewrite (update_loop_cons_Raise _ _ _ _ _ Hstep).
      exists 0. split; [lia|]. by rewrite advance_0.
Qed.

Lemma update_loop_app (pre rest : list string) :
  ∀ (archive_list out : list entry) (w w' : world),
    update_loop os_path_join calculate_tree_hash local_dir d pre archive_list w
      = (Ok out, w') →
    update_loop os_path_join calculate_tree_hash local_dir d
      (pre ++ rest) archive_list w
    = update_loop os_path_join calculate_tree_hash local_dir d rest out w'.
Proof.
  induction pre as [|f pre IH]; intros archive_list out w w' Hpre.
  - simpl in Hpre. by injection Hpre as <- <-.
  - rewrite <- app_comm_cons.
    destruct (checksum_step_cases f w) as [(c & Hstep & _)|(Hstep & _)].
    + rewrite (update_loop_cons_Ok _ _ _ _ _ Hstep) in Hpre.
      rewrite (update_loop_cons_Ok _ _ _ _ _ Hstep).
      by apply IH.
    + rewrite (update_loop_cons_Raise _ _ _ _ _ Hstep) in Hpre. discriminate Hpre.
Qed.

Lemma checksum_for_advance (w : world) (n : nat) (f c : string) :
  checksum_for os_path_join calculate_tree_hash local_dir d (advance w n) f c ↔
  checksum_for os_path_join calculate_tree_hash local_dir d w f c.
Proof. done. Qed.

(** What a run of the loop that returns has appended. *)
Lemma update_loop_inv (filenames : list string) :
  ∀ (archive_list out : list entry) (w w' : world),
    update_loop os_path_join calculate_tree_hash local_dir d
      filenames archive_list w = (Ok out, w') →
    ∃ new,
      out = archive_list ++ new ∧
      w' = advance w (length filenames) ∧
      Forall2 (λ f e, ∃ ts c,
                 e = archive_entry f ts c ∧
                 checksum_for os_path_join calculate_tree_hash local_dir d w f c)
        filenames new.
Proof.
  induction filenames as [|f rest IH]; intros archive_list out w w' Hrun.
  - simpl in Hrun. injection Hrun as <- <-.
    exists []. by rewrite app_nil_r, advance_0.
  - destruct (checksum_step_cases f w) as [(c & Hstep & Hsum)|(Hstep & _)].
    + rewrite (update_loop_cons_Ok _ _ _ _ _ Hstep) in Hrun.
      apply IH in Hrun as (new & -> & -> & Hnew).
      exists (archive_entry f (clock w (clock_reads w)) c :: new).
      split; [by rewrite <- app_assoc|]. split; [apply advance_advance|].
      constructor; [eauto|].
      eapply Forall2_impl; [exact Hnew|].
      intros f' e' (ts & c' & -> & Hsum'). eauto.
    + rewrite (update_loop_cons_Raise _ _ _ _ _ Hstep) in Hrun. discriminate Hrun.
Qed.

End UpdaterLoop.

(** The projection of records made by the updater: each filename is a
    key and maps to one of the checksums recorded for it; other names
    are as in the accumulator. *)
Lemma dictify_named_entries (P : string → string → Prop)
    (filenames : list string) (new : list entry) :
  Forall2 (λ f e, ∃ ts c, e = archive_entry f ts c ∧ P f c) filenames new →
  ∀ acc, ∃ d',
    dictify_entries new acc = Ok d' ∧
    (∀ k, k ∈ filenames → ∃ c, dict_get d' k = Some c ∧ P k c) ∧
    (∀ k, k ∉ filenames → dict_get d' k = dict_get acc k).
Proof.
  induction 1 as [|f e fs new (ts & c & -> & HP) _ IH]; intros acc.
  - exists acc. split; [done|]. split; [|done].
    intros k Hk. by apply elem_of_nil in Hk.
  - destruct (IH (dict_set acc f c)) as (d' & Hd' & Hin & Hout).
    exists d'. split; [|split].
    + apply dictify_entries_cons_Ok. exists f, c.
      by rewrite archive_entry_name, archive_entry_checksum.
    + intros k Hk. destruct (decide (k ∈ fs)) as [Hfs|Hfs]; [by apply Hin|].
      apply elem_of_cons in Hk as [->|Hk]; [|done].
      exists c. split; [|done]. rewrite (Hout f Hfs). apply dict_get_set_eq.
    + intros k Hk. apply not_elem_of_cons in Hk as [Hne Hk].
      rewrite (Hout k Hk). by apply dict_get_set_ne.
Qed.

Lemma update_local_inventory_inv
    (os_path_join : string → string → string)
    (calculate_tree_hash : string → string)
    (local_dir : string) (local_filenames : list string)
    (old_local_inventory inv1 : inventory) (w w1 : world) :
  update_local_inventory os_path_join calculate_tree_hash
    local_dir local_filenames old_local_inventory w = (Ok inv1, w1) →
  ∃ d new,
    dictify_inventory old_local_inventory = Ok d ∧
    inv1 = inv_of new ∧
    w1 = advance w (length local_filenames) ∧
    Forall2 (λ f e, ∃ ts c,
               e = archive_entry f ts c ∧
               checksum_for os_path_join calculate_tree_hash local_dir d w f c)
      local_filenames new.
Proof.
  unfold update_local_inventory, tqdm. intros Hrun.
  destruct (dictify_inventory old_local_inventory) as [d|e] eqn:Hd.
  - rewrite (io_bind_Ok (lift (Ok d)) _ w w d) in Hrun by done.
    destruct (update_loop os_path_join calculate_tree_hash local_dir d
                local_filenames [] w) as [[out|e] w'] eqn:Hloop.
    + rewrite (io_bind_Ok _ _ _ _ _ Hloop) in Hrun.
      injection Hrun as <- <-.
      apply update_loop_inv in Hloop as (new & -> & -> & Hnew).
      exists d, new. done.
    + rewrite (io_bind_Raise _ _ _ _ _ Hloop) in Hrun. discriminate Hrun.
  - rewrite (io_bind_Raise (lift (Raise e)) _ w w e) in Hrun by done.
    discriminate Hrun.
Qed.

(** X5. Whatever the inputs and the outcome, the updater writes no file:
    the files and the clock of the world are as before, and the clock
    has been read at most once per filename. *)
Theorem update_local_inventory_frame
    (os_path_join : string → string → string)
    (calculate_tree_hash : string → string)
    (local_dir : string) (local_filenames : list string)
    (old_local_inventory : inventory) (w : world) :
  ∃ n : nat,
    (n ≤ length local_filenames)%nat ∧
    (update_local_inventory os_path_join calculate_tree_hash
       local_dir local_filenames old_local_inventory w).2 = advance w n ∧
    files (advance w n) = files w ∧ clock (advance w n) = clock w.
Proof.
  unfold update_local_inventory, tqdm.
  destruct (dictify_inventory old_local_inventory) as [d|e] eqn:Hd.
  - rewrite (io_bind_Ok (lift (Ok d)) _ w w d) by done.
    destruct (update_loop_frame os_path_join calculate_tree_hash local_dir d
                local_filenames [] w) as (n & Hn & Hw).
    exists n. split; [done|]. split; [|done].
    destruct (update_loop os_path_join calculate_tree_hash local_dir d
                local_filenames [] w) as [[out|e] w'] eqn:Hloop; simpl in Hw; subst w'.
    + by rewrite (io_bind_Ok _ _ _ _ _ Hloop).
    + by rewrite (io_bind_Raise _ _ _ _ _ Hloop).
  - exists 0. split; [lia|]. split; [|done].
    rewrite (io_bind_Raise (lift (Raise e)) _ w w e) by done.
    by rewrite advance_0.
Qed.

(** X6. The first filename that is not cached and whose file cannot be
    read makes the updater raise [IOError] for the path of that file;
    the clock has then been read once for each filename before it, and no
    inventory is returned. *)
Theorem update_local_inventory_first_unreadable
    (os_path_join : string → string → string)
    (calculate_tree_hash : string → string)
    (local_dir : string) (pre post : list string) (f : string)
    (old_local_inventory : inventory) (d : pydict) (w : world) :
  dictify_inventory old_local_inventory = Ok d →
  (∀ g, g ∈ pre → dict_get d g = None →
        ∃ content, files w !! os_path_join local_dir g = Some (Regular content)) →
  dict_get d f = None →
  (∀ content, files w !! os_path_join local_dir f ≠ Some (Regular content)) →
  update_local_inventory os_path_join calculate_tree_hash
    local_dir (pre ++ f :: post) old_local_inventory w
  = (Raise (IOError (os_path_join local_dir f)), advance w (length pre)).
Proof.
  intros Hd Hpre Hnone Hbad.
  unfold update_local_inventory, tqdm.
  rewrite (io_bind_Ok (lift (dictify_inventory old_local_inventory)) _ w w d)
    by (unfold lift; by rewrite Hd).
  destruct (update_loop_spec os_path_join calculate_tree_hash local_dir d
              pre [] w Hpre) as (new & Hloop & _).
  apply io_bind_Raise.
  rewrite (update_loop_app _ _ _ _ _ _ _ _ _ _ Hloop).
  destruct (checksum_step_cases os_path_join calculate_tree_hash local_dir d f
              (advance w (length pre))) as [(c & _ & Hsum)|(Hstep & _)].
  - destruct Hsum as [Hsome|(_ & content & Hfile & _)]; [congruence|].
    by destruct (Hbad content).
  - by apply update_loop_cons_Raise.
Qed.

Lemma update_local_inventory_first_unreadable_witness :
  update_local_inventory demo_join demo_tree_hash "photos"
    (["a.txt"; "b.txt"] ++ "c.txt" :: ["d.txt"])
    (inv_of [rec2 "a.txt" "stale-H1"]) demo_world
  = (Raise (IOError (demo_join "photos" "c.txt")), advance demo_world 2).
Proof.
  apply (update_local_inventory_first_unreadable demo_join demo_tree_hash "photos"
           ["a.txt"; "b.txt"] ["d.txt"] "c.txt"
           (inv_of [rec2 "a.txt" "stale-H1"]) [("a.txt", "stale-H1")] demo_world).
  - reflexivity.
  - intros g Hg Hnone.
    apply elem_of_cons in Hg as [->|Hg]; [discriminate Hnone|].
    apply list_elem_of_singleton in Hg as ->.
    exists "bytes of b". reflexivity.
  - reflexivity.
  - intros content. vm_compute. discriminate.
Defined.

(** X7. The cache is trusted on a second run.  When the updater has
    returned an inventory for a list of filenames, running it again on
    that inventory and the same filenames returns in any world, whatever
    the files hold or whether they can be read at all, and the new
    inventory has the same projection: every name keeps its checksum. *)
Theorem update_local_inventory_rerun
    (os_path_join : string → string → string)
    (calculate_tree_hash : string → string)
    (local_dir : string) (local_filenames : list string)
    (old_local_inventory inv1 : inventory) (w w1 w2 : world) :
  update_local_inventory os_path_join calculate_tree_hash
    local_dir local_filenames old_local_inventory w = (Ok inv1, w1) →
  ∃ inv2 d1 d2,
    update_local_inventory os_path_join calculate_tree_hash
      local_dir local_filenames inv1 w2
      = (Ok inv2, advance w2 (length local_filenames)) ∧
    dictify_inventory inv1 = Ok d1 ∧
    dictify_inventory inv2 = Ok d2 ∧
    ∀ k, dict_get d2 k = dict_get d1 k.
Proof.
  intros Hrun.
  apply update_local_inventory_inv in Hrun as (d & new1 & _ & -> & _ & Hnew1).
  destruct (dictify_named_entries _ _ _ Hnew1 []) as (d1 & Hd1 & Hin1 & Hout1).
  assert (dictify_inventory (inv_of new1) = Ok d1) as Hproj1.
  { apply dictify_inventory_Ok. exists new1. done. }
  destruct (update_loop_spec os_path_join calculate_tree_hash local_dir d1
              local_filenames [] w2) as (new2 & Hloop & _).
  { intros f Hf Hnone. destruct (Hin1 f Hf) as (c & Hc & _). congruence. }
  pose proof Hloop as Hloop'.
  apply update_loop_inv in Hloop' as (new2' & [= <-] & _ & Hnew2).
  destruct (dictify_named_entries _ _ _ Hnew2 []) as (d2 & Hd2 & Hin2 & Hout2).
  exists (inv_of new2), d1, d2.
  split; [|split; [exact Hproj1 | split]].
  - unfold update_local_inventory, tqdm.
    rewrite (io_bind_Ok (lift (dictify_inventory (inv_of new1))) _ w2 w2 d1)
      by (unfold lift; by rewrite Hproj1).
    by rewrite (io_bind_Ok _ _ _ _ _ Hloop).
  - apply dictify_inventory_Ok. exists new2. done.
  - intros k. destruct (decide (k ∈ local_filenames)) as [Hk|Hk].
    + destruct (Hin1 k Hk) as (c1 & Hc1 & _).
      destruct (Hin2 k Hk) as (c2 & Hc2 & [Hcached|[Hnone _]]); congruence.
    + by rewrite (Hout1 k Hk), (Hout2 k Hk).
Qed.

Lemma update_local_inventory_rerun_witness :
  ∃ inv2 d1 d2,
    update_local_inventory demo_join demo_tree_hash "photos" ["a.txt"; "b.txt"]
      (inv_of [archive_entry "a.txt" "2024-05-01 10:00:00" "stale-H1";
               archive_entry "b.txt" "2024-05-01 10:00:07" "hash-of-bytes of b"])
      {| files := ∅; clock := demo_clock; clock_reads := 5 |}
      = (Ok inv2,
         advance {| files := ∅; clock := demo_clock; clock_reads := 5 |} 2) ∧
    dictify_inventory
      (inv_of [archive_entry "a.txt" "2024-05-01 10:00:00" "stale-H1";
               archive_entry "b.txt" "2024-05-01 10:00:07" "hash-of-bytes of b"])
      = Ok d1 ∧
    dictify_inventory inv2 = Ok d2 ∧
    ∀ k, dict_get d2 k = dict_get d1 k.
Proof.
  apply (update_local_inventory_rerun demo_join demo_tree_hash "photos"
           ["a.txt"; "b.txt"]
           (inv_of [archive_entry "a.txt" "2024-04-30 08:00:00" "stale-H1";
                    archive_entry "gone.txt" "2024-04-30 08:00:01" "H7"])
           _ demo_world (advance demo_world 2)).
  vm_compute. reflexivity.
Defined.

(** X8. The projection of the inventory the updater returns has the
    input filenames as its keys, no other, and maps each to the cached
    checksum or to the tree hash of the file. *)
Theorem update_local_inventory_projection
    (os_path_join : string → string → string)
    (calculate_tree_hash : string → string)
    (local_dir : string) (local_filenames : list string)
    (old_local_inventory inv1 : inventory) (w w1 : world) :
  update_local_inventory os_path_join calculate_tree_hash
    local_dir local_filenames old_local_inventory w = (Ok inv1, w1) →
  ∃ d d1,
    dictify_inventory old_local_inventory = Ok d ∧
    dictify_inventory inv1 = Ok d1 ∧
    (∀ k, k ∈ dict_keys d1 ↔ k ∈ local_filenames) ∧
    (∀ k c, dict_get d1 k = Some c →
       checksum_for os_path_join calculate_tree_hash local_dir d w k c).
Proof.
  intros Hrun.
  apply update_local_inventory_inv in Hrun as (d & new1 & Hd & -> & _ & Hnew1).
  destruct (dictify_named_entries _ _ _ Hnew1 []) as (d1 & Hd1 & Hin1 & Hout1).
  exists d, d1. split; [exact Hd|]. split; [|split].
  - apply dictify_inventory_Ok. exists new1. done.
  - intros k. rewrite <- dict_get_is_Some. split.
    + intros [c Hc]. apply dec_stable. intros Hk.
      rewrite (Hout1 k Hk) in Hc. discriminate Hc.
    + intros Hk. destruct (Hin1 k Hk) as (c & Hc & _). eauto.
  - intros k c Hc. destruct (decide (k ∈ local_filenames)) as [Hk|Hk].
    + destruct (Hin1 k Hk) as (c' & Hc' & Hsum). congruence.
    + rewrite (Hout1 k Hk) in Hc. discriminate Hc.
Qed.

Lemma update_local_inventory_projection_witness :
  ∃ d d1,
    dictify_inventory
      (inv_of [archive_entry "a.txt" "2024-04-30 08:00:00" "stale-H1";
               archive_entry "gone.txt" "2024-04-30 08:00:01" "H7"]) = Ok d ∧
    dictify_inventory
      (inv_of [archive_entry "a.txt" "2024-05-01 10:00:00" "stale-H1";
               archive_entry "b.txt" "2024-05-01 10:00:07" "hash-of-bytes of b"])
      = Ok d1 ∧
    (∀ k, k ∈ dict_keys d1 ↔ k ∈ ["a.txt"; "b.txt"]) ∧
    (∀ k c, dict_get d1 k = Some c →
       checksum_for demo_join demo_tree_hash "photos" d demo_world k c).
Proof.
  apply (update_local_inventory_projection demo_join demo_tree_hash "photos"
           ["a.txt"; "b.txt"]
           (inv_of [archive_entry "a.txt" "2024-04-30 08:00:00" "stale-H1";
                    archive_entry "gone.txt" "2024-04-30 08:00:01" "H7"])
           _ demo_world (advance demo_world 2)).
  vm_compute. reflexivity.
Defined.

(** X9. Reconciling the updated local inventory with a remote one reads
    the directory listing: a name is reported missing locally exactly
    when the remote projection has it and it is not among the filenames,
    and missing remotely exactly when it is among the filenames and the
    remote projection does not have it. *)
Theorem reconcile_after_update
    (os_path_join : string → string → string)
    (calculate_tree_hash : string → string)
    (local_dir : string) (local_filenames : list string)
    (old_local_inventory inv1 remote : inventory) (dr : pydict) (w w1 : world) :
  update_local_inventory os_path_join calculate_tree_hash
    local_dir local_filenames old_local_inventory w = (Ok inv1, w1) →
  dictify_inventory remote = Ok dr →
  ∃ missing_local missing_remote,
    check_missing_files inv1 remote = Ok missing_local ∧
    check_missing_files remote inv1 = Ok missing_remote ∧
    (∀ k, k ∈ missing_local ↔ k ∈ dict_keys dr ∧ k ∉ local_filenames) ∧
    (∀ k, k ∈ missing_remote ↔ k ∈ local_filenames ∧ k ∉ dict_keys dr).
Proof.
  intros Hrun Hr.
  apply update_local_inventory_inv in Hrun as (d & new1 & Hd & -> & _ & Hnew1).
  destruct (dictify_named_entries _ _ _ Hnew1 []) as (d1 & Hd1 & Hin1 & Hout1).
  assert (dictify_inventory (inv_of new1) = Ok d1) as Hproj1.
  { apply dictify_inventory_Ok. exists new1. done. }
  assert (∀ k, k ∈ dict_keys d1 ↔ k ∈ local_filenames) as Hkeys.
  { intros k. rewrite <- dict_get_is_Some. split.
    - intros [c Hc]. apply dec_stable. intros Hk.
      rewrite (Hout1 k Hk) in Hc. discriminate Hc.
    - intros Hk. destruct (Hin1 k Hk) as (c & Hc & _). eauto. }
  eexists _, _.
  split; [by apply check_missing_files_Ok|].
  split; [by apply check_missing_files_Ok|].
  split; intros k; rewrite elem_of_missing, Hkeys; done.
Qed.

Lemma reconcile_after_update_witness :
  ∃ missing_local missing_remote,
    check_missing_files
      (inv_of [archive_entry "a.txt" "2024-05-01 10:00:00" "stale-H1";
               archive_entry "b.txt" "2024-05-01 10:00:07" "hash-of-bytes of b"])
      (inv_of [rec2 "a.txt" "H1"; rec2 "c.txt" "H3"]) = Ok missing_local ∧
    check_missing_files
      (inv_of [rec2 "a.txt" "H1"; rec2 "c.txt" "H3"])
      (inv_of [archive_entry "a.txt" "2024-05-01 10:00:00" "stale-H1";
               archive_entry "b.txt" "2024-05-01 10:00:07" "hash-of-bytes of b"])
      = Ok missing_remote ∧
    (∀ k, k ∈ missing_local ↔
          k ∈ dict_keys [("a.txt", "H1"); ("c.txt", "H3")] ∧
          k ∉ ["a.txt"; "b.txt"]) ∧
    (∀ k, k ∈ missing_remote ↔
          k ∈ ["a.txt"; "b.txt"] ∧
          k ∉ dict_keys [("a.txt", "H1"); ("c.txt", "H3")]).
Proof.
  apply (reconcile_after_update demo_join demo_tree_hash "photos"
           ["a.txt"; "b.txt"]
           (inv_of [archive_entry "a.txt" "2024-04-30 08:00:00" "stale-H1";
                    archive_entry "gone.txt" "2024-04-30 08:00:01" "H7"])
           _ (inv_of [rec2 "a.txt" "H1"; rec2 "c.txt" "H3"]) _
           demo_world (advance demo_world 2)).
  - vm_compute. reflexivity.
  - reflexivity.
Defined.

(** ** Enumeration of the directory *)

(** X10. [get_valid_files] returns the listed names that are files and are
    not one of the three reserved names, in the order of the listing, and
    leaves the world as it is; the reserved names are never returned,
    even when the directory holds them.  An error of the listing is
    raised to the caller. *)
Theorem get_valid_files_spec
    (os_path_join : string → string → string)
    (os_listdir : world → string → result (list string))
    (os_path_isfile : world → string → bool)
    (local_dir : string) (w : world) :
  (∀ names, os_listdir w local_dir = Ok names →
     ∃ valid,
       get_valid_files os_path_join os_listdir os_path_isfile local_dir w
         = (Ok valid, w) ∧
       valid `sublist_of` names ∧
       (∀ f, f ∈ valid ↔
             f ∈ names ∧ os_path_isfile w (os_path_join local_dir f) = true ∧
             f ≠ REMOTE_INVENTORY_FILENAME ∧ f ≠ LOCAL_INVENTORY_FILENAME ∧
             f ≠ CHECK_RECEIPT_FILENAME)) ∧
  (∀ e, os_listdir w local_dir = Raise e →
     get_valid_files os_path_join os_listdir os_path_isfile local_dir w
       = (Raise e, w)).
Proof.
  unfold get_valid_files. split.
  - intros names ->. eexists. split; [reflexivity|]. split.
    + apply sublist_filter.
    + intros f. rewrite list_elem_of_filter. unfold EXCLUDE_FILENAMES.
      rewrite !not_elem_of_cons. split.
      * intros [[? (? & ? & ? & _)] ?]. done.
      * intros (? & ? & ? & ? & ?). repeat split; try done. apply not_elem_of_nil.
  - intros e ->. reflexivity.
Qed.

Lemma get_valid_files_spec_witness :
  ∃ valid,
    get_valid_files demo_join demo_listdir demo_isfile "photos" demo_world_after
      = (Ok valid, demo_world_after) ∧
    valid `sublist_of` ["a.txt"; "sub"; "local-inventory.json"; "b.txt";
                        "remote-inventory.json"; "check-receipt.json"] ∧
    (∀ f, f ∈ valid ↔
          f ∈ ["a.txt"; "sub"; "local-inventory.json"; "b.txt";
               "remote-inventory.json"; "check-receipt.json"] ∧
          demo_isfile demo_world_after (demo_join "photos" f) = true ∧
          f ≠ REMOTE_INVENTORY_FILENAME ∧ f ≠ LOCAL_INVENTORY_FILENAME ∧
          f ≠ CHECK_RECEIPT_FILENAME).
Proof.
  apply (proj1 (get_valid_files_spec demo_join demo_listdir demo_isfile
                  "photos" demo_world_after)).
  reflexivity.
Defined.

Example get_valid_files_run :
  (get_valid_files demo_join demo_listdir demo_isfile "photos" demo_world_after).1
  = Ok ["a.txt"; "b.txt"].
Proof. vm_compute. reflexivity. Qed.

(** ** Programs that print *)

Lemma cio_bind_Ok {A B} (m : cio A) (f : A → cio B) (p p' : process) (a : A) :
  m p = (Ok a, p') → (m ≫= f) p = f a p'.
Proof. intros H. unfold mbind, cio_bind. by rewrite H. Qed.

Lemma cio_bind_Raise {A B} (m : cio A) (f : A → cio B) (p p' : process) (e : exn) :
  m p = (Raise e, p') → (m ≫= f) p = (Raise e, p').
Proof. intros H. unfold mbind, cio_bind. by rewrite H. Qed.

Lemma cio_bind_inv {A B} (m : cio A) (f : A → cio B) (p p' : process) (b : B) :
  (m ≫= f) p = (Ok b, p') → ∃ a p1, m p = (Ok a, p1) ∧ f a p1 = (Ok b, p').
Proof.
  unfold mbind, cio_bind. destruct (m p) as [[a|e] p1]; [eauto | discriminate].
Qed.

Lemma run_io_eq {A} (m : io A) (p : process) (r : result A) (w' : world) :
  m (proc_world p) = (r, w') →
  run_io m p = (r, {| proc_world := w'; stdout := stdout p |}).
Proof. unfold run_io. by intros ->. Qed.

Lemma run_io_same_world {A} (m : io A) (p : process) (r : result A) :
  m (proc_world p) = (r, proc_world p) → run_io m p = (r, p).
Proof. intros H. rewrite (run_io_eq _ _ _ _ H). by destruct p. Qed.

Lemma run_io_inv {A} (m : io A) (p p' : process) (r : result A) :
  run_io m p = (r, p') →
  m (proc_world p) = (r, proc_world p') ∧ stdout p' = stdout p.
Proof.
  unfold run_io. destruct (m (proc_world p)) as [r' w'].
  intros [= -> <-]. done.
Qed.

Lemma run_io_getitem_Ok {V} (m : gmap string V) (k : string) (v : V) (p : process) :
  m !! k = Some v → run_io (lift (getitem m k)) p = (Ok v, p).
Proof.
  intros H. apply run_io_same_world. unfold lift.
  by rewrite (proj2 (getitem_Ok _ _ _) H).
Qed.

Lemma run_io_getitem_Raise {V} (m : gmap string V) (k : string) (p : process) :
  m !! k = None → run_io (lift (getitem m k)) p = (Raise (KeyError k), p).
Proof.
  intros H. apply run_io_same_world. unfold lift. by rewrite (getitem_Raise _ _ H).
Qed.

Lemma print_hint_if_list (receipt : gmap string receipt_value)
    (key hint : string) (l : list string) (p : process) :
  receipt !! key = Some (RList l) →
  print_hint_if receipt key hint p
  = (Ok (), {| proc_world := proc_world p;
               stdout := stdout p ++ match l with [] => [] | _ => [hint] end |}).
Proof.
  intros H. unfold print_hint_if.
  rewrite (cio_bind_Ok _ _ _ _ _ (run_io_getitem_Ok _ _ _ p H)).
  destruct l; simpl; [|done].
  rewrite app_nil_r. by destruct p.
Qed.

(** X11. For a receipt that carries its three lists, the hints never
    raise and print [hint_lines]: [looks good!] alone when the three lists
    are empty, and otherwise the problem line followed by one hint for
    each list that is not empty, in the order missing locally, missing
    remotely, mismatched. *)
Theorem print_check_receipt_hints_lines
    (receipt : gmap string receipt_value)
    (missing_local missing_remote mismatched : list string) (p : process) :
  receipt !! "missing_local_files" = Some (RList missing_local) →
  receipt !! "missing_remote_files" = Some (RList missing_remote) →
  receipt !! "mismatched_files" = Some (RList mismatched) →
  print_check_receipt_hints receipt p
  = (Ok (), {| proc_world := proc_world p;
               stdout := stdout p
                         ++ hint_lines missing_local missing_remote mismatched |}) ∧
  (hint_lines missing_local missing_remote mismatched = [LOOKS_GOOD_LINE] ↔
   missing_local = [] ∧ missing_remote = [] ∧ mismatched = []) ∧
  (MISSING_LOCAL_HINT ∈ hint_lines missing_local missing_remote mismatched ↔
   missing_local ≠ []) ∧
  (MISSING_REMOTE_HINT ∈ hint_lines missing_local missing_remote mismatched ↔
   missing_remote ≠ []) ∧
  (MISMATCHED_HINT ∈ hint_lines missing_local missing_remote mismatched ↔
   mismatched ≠ []).
Proof.
  intros Hml Hmr Hmm. split.
  - unfold print_check_receipt_hints, print_hint_if, run_io, lift, getitem.
    unfold mbind, cio_bind, mret, cio_ret, print.
    rewrite Hml, Hmr, Hmm.
    destruct missing_local, missing_remote, mismatched; simpl;
      rewrite <- ?app_assoc; reflexivity.
  - destruct missing_local, missing_remote, mismatched;
      (split; [split; [intros [=] | intros (? & ? & ?)]; done|]);
      (repeat split; intros H; try done;
       try (by exfalso; vm_compute in H;
            repeat (apply elem_of_cons in H as [H|H]; [discriminate H|]);
            apply elem_of_nil in H);
       try (vm_compute; repeat (first [ by left | right ]))).
Qed.

Lemma print_check_receipt_hints_lines_witness :
  print_check_receipt_hints
    {[ "local_dir" := RStr "/home/user/photos";
       "missing_local_files" := RList ["c.txt"];
       "missing_remote_files" := RList [];
       "mismatched_files" := RList ["a.txt"];
       "timestamp" := RStr "2024-05-01 10:00:09" ]}
    {| proc_world := demo_world; stdout := ["earlier line"] |}
  = (Ok (), {| proc_world := demo_world;
               stdout := ["earlier line"] ++ hint_lines ["c.txt"] [] ["a.txt"] |}) ∧
  (hint_lines ["c.txt"] [] ["a.txt"] = [LOOKS_GOOD_LINE] ↔
   ["c.txt"] = [] ∧ ([] : list string) = [] ∧ ["a.txt"] = []) ∧
  (MISSING_LOCAL_HINT ∈ hint_lines ["c.txt"] [] ["a.txt"] ↔ ["c.txt"] ≠ []) ∧
  (MISSING_REMOTE_HINT ∈ hint_lines ["c.txt"] [] ["a.txt"] ↔
   ([] : list string) ≠ []) ∧
  (MISMATCHED_HINT ∈ hint_lines ["c.txt"] [] ["a.txt"] ↔ ["a.txt"] ≠ []).
Proof.
  apply (print_check_receipt_hints_lines
           {[ "local_dir" := RStr "/home/user/photos";
              "missing_local_files" := RList ["c.txt"];
              "missing_remote_files" := RList [];
              "mismatched_files" := RList ["a.txt"];
              "timestamp" := RStr "2024-05-01 10:00:09" ]}
           ["c.txt"] [] ["a.txt"]
           {| proc_world := demo_world; stdout := ["earlier line"] |});
    reflexivity.
Defined.

(** X12. A receipt that lacks a field makes the hints raise [KeyError]
    when the field is first read.  Without [missing_local_files] nothing
    has been printed yet.  With a true [missing_local_files] the first
    condition stops there, so a receipt without [missing_remote_files]
    raises only after the problem line and the first hint are printed. *)
Theorem print_check_receipt_hints_missing_field
    (receipt : gmap string receipt_value) (p : process) :
  (receipt !! "missing_local_files" = None →
   print_check_receipt_hints receipt p
   = (Raise (KeyError "missing_local_files"), p)) ∧
  (∀ v, receipt !! "missing_local_files" = Some v →
        truthy v = true →
        receipt !! "missing_remote_files" = None →
        print_check_receipt_hints receipt p
        = (Raise (KeyError "missing_remote_files"),
           {| proc_world := proc_world p;
              stdout := stdout p ++ [PROBLEM_LINE; MISSING_LOCAL_HINT] |})).
Proof.
  split.
  - intros Hml. unfold print_check_receipt_hints.
    apply cio_bind_Raise. by apply run_io_getitem_Raise.
  - intros v Hml Htrue Hmr.
    unfold print_check_receipt_hints, print_hint_if, run_io, lift, getitem.
    unfold mbind, cio_bind, mret, cio_ret, print.
    rewrite Hml, Hmr, Htrue. simpl. rewrite <- ?app_assoc. reflexivity.
Qed.

Lemma print_check_receipt_hints_missing_field_witness :
  print_check_receipt_hints ∅ {| proc_world := demo_world; stdout := [] |}
  = (Raise (KeyError "missing_local_files"),
     {| proc_world := demo_world; stdout := [] |}) ∧
  print_check_receipt_hints {[ "missing_local_files" := RList ["c.txt"] ]}
    {| proc_world := demo_world; stdout := [] |}
  = (Raise (KeyError "missing_remote_files"),
     {| proc_world := demo_world;
        stdout := [] ++ [PROBLEM_LINE; MISSING_LOCAL_HINT] |}).
Proof.
  split.
  - apply (proj1 (print_check_receipt_hints_missing_field ∅
                    {| proc_world := demo_world; stdout := [] |})).
    reflexivity.
  - apply (proj2 (print_check_receipt_hints_missing_field
                    {[ "missing_local_files" := RList ["c.txt"] ]}
                    {| proc_world := demo_world; stdout := [] |})
             (RList ["c.txt"])); reflexivity.
Defined.

(** ** What the functions leave alone *)

Lemma same_but_refl (touched : string → Prop) (w : world) : same_but touched w w.
Proof. done. Qed.

Lemma same_but_trans (touched : string → Prop) (w1 w2 w3 : world) :
  same_but touched w1 w2 → same_but touched w2 w3 → same_but touched w1 w3.
Proof.
  intros [Hc1 Hf1] [Hc2 Hf2]. split; [congruence|].
  intros path Hpath. rewrite (Hf2 path Hpath). by apply Hf1.
Qed.

Lemma same_but_advance (touched : string → Prop) (w : world) (n : nat) :
  same_but touched w (advance w n).
Proof. done. Qed.

Lemma write_file_same_but (touched : string → Prop) (path content : string)
    (w : world) :
  touched path → same_but touched w (write_file path content w).2.
Proof.
  intros Hpath. unfold write_file.
  destruct (files w !! path) as [[|c]|]; simpl; try done;
    (split; [done|]; intros path' Hpath'; simpl;
     apply lookup_insert_ne; by intros ->).
Qed.

Lemma os_remove_same_but (touched : string → Prop) (path : string) (w : world) :
  touched path → same_but touched w (os_remove path w).2.
Proof.
  intros Hpath. unfold os_remove.
  destruct (files w !! path) as [node|]; simpl; [|done].
  split; [done|]. intros path' Hpath'. simpl.
  apply lookup_delete_ne. by intros ->.
Qed.

Lemma update_local_inventory_world
    (os_path_join : string → string → string)
    (calculate_tree_hash : string → string)
    (local_dir : string) (local_filenames : list string)
    (old_local_inventory : inventory) (w : world) :
  ∃ n : nat,
    (update_local_inventory os_path_join calculate_tree_hash
       local_dir local_filenames old_local_inventory w).2 = advance w n.
Proof.
  unfold update_local_inventory, tqdm.
  destruct (dictify_inventory old_local_inventory) as [d|e] eqn:Hd.
  - rewrite (io_bind_Ok (lift (Ok d)) _ w w d) by done.
    destruct (update_loop_frame os_path_join calculate_tree_hash local_dir d
                local_filenames [] w) as (n & _ & Hw).
    exists n.
    destruct (update_loop os_path_join calculate_tree_hash local_dir d
                local_filenames [] w) as [[out|e] w'] eqn:Hloop; simpl in Hw; subst w'.
    + by rewrite (io_bind_Ok _ _ _ _ _ Hloop).
    + by rewrite (io_bind_Raise _ _ _ _ _ Hloop).
  - exists 0. rewrite (io_bind_Raise (lift (Raise e)) _ w w e) by done.
    by rewrite advance_0.
Qed.

Section Frame.

Context (touched : string → Prop) (verbose : bool).

Lemma leaves_alone_refl (p : process) : leaves_alone touched verbose p p.
Proof. done. Qed.

Lemma leaves_alone_trans (p1 p2 p3 : process) :
  leaves_alone touched verbose p1 p2 →
  leaves_alone touched verbose p2 p3 →
  leaves_alone touched verbose p1 p3.
Proof.
  intros (Hw1 & Hpre1 & Hs1) (Hw2 & Hpre2 & Hs2). split; [|split].
  - by apply (same_but_trans _ _ (proc_world p2)).
  - by transitivity (stdout p2).
  - intros Hv. rewrite (Hs2 Hv). by apply Hs1.
Qed.

Lemma cio_bind_leaves_alone {A B} (m : cio A) (f : A → cio B) :
  (∀ p, leaves_alone touched verbose p (m p).2) →
  (∀ a p, leaves_alone touched verbose p (f a p).2) →
  ∀ p, leaves_alone touched verbose p ((m ≫= f) p).2.
Proof.
  intros Hm Hf p. specialize (Hm p). unfold mbind, cio_bind.
  destruct (m p) as [[a|e] p1]; simpl in Hm; [|done].
  apply (leaves_alone_trans _ p1); [done | apply Hf].
Qed.

Lemma run_io_leaves_alone {A} (m : io A) :
  (∀ w, same_but touched w (m w).2) →
  ∀ p, leaves_alone touched verbose p (run_io m p).2.
Proof.
  intros Hm p. specialize (Hm (proc_world p)). unfold run_io.
  destruct (m (proc_world p)) as [r w']. simpl in *. done.
Qed.

Lemma run_io_lift_leaves_alone {A} (r : result A) (p : process) :
  leaves_alone touched verbose p (run_io (lift r) p).2.
Proof. by apply run_io_leaves_alone. Qed.

End Frame.

Lemma print_leaves_alone (touched : string → Prop) (line : string) (p : process) :
  leaves_alone touched true p (print line p).2.
Proof.
  split; [done|]. split; [|done]. simpl. by apply prefix_app_r.
Qed.

Lemma print_hint_if_leaves_alone (touched : string → Prop)
    (receipt : gmap string receipt_value) (key hint : string) (p : process) :
  leaves_alone touched true p (print_hint_if receipt key hint p).2.
Proof.
  revert p. unfold print_hint_if. apply cio_bind_leaves_alone.
  - apply run_io_lift_leaves_alone.
  - intros v p. destruct (truthy v); [apply print_leaves_alone | done].
Qed.

Lemma print_check_receipt_hints_leaves_alone (touched : string → Prop)
    (receipt : gmap string receipt_value) (p : process) :
  leaves_alone touched true p (print_check_receipt_hints receipt p).2.
Proof.
  revert p. unfold print_check_receipt_hints.
  apply cio_bind_leaves_alone; [apply run_io_lift_leaves_alone|].
  intros missing_local. apply cio_bind_leaves_alone.
  { destruct (truthy missing_local); [done|].
    apply cio_bind_leaves_alone; [apply run_io_lift_leaves_alone|].
    intros missing_remote. destruct (truthy missing_remote); [done|].
    apply cio_bind_leaves_alone; [apply run_io_lift_leaves_alone | done]. }
  intros problem. apply cio_bind_leaves_alone.
  { intros p. destruct problem; apply print_leaves_alone. }
  intros _. apply cio_bind_leaves_alone; [apply print_hint_if_leaves_alone|].
  intros _. apply cio_bind_leaves_alone; [apply print_hint_if_leaves_alone|].
  intros _. apply print_hint_if_leaves_alone.
Qed.

(** X13. Whatever its arguments and however it ends, returning or
    raising, an error of the parser that the loader does not catch
    included, [main] changes no file other than the local inventory and
    the receipt of the directory; its standard output only grows, and
    stays as it was when the run is not verbose. *)
Theorem main_leaves_alone
    (os_path_join : string → string → string)
    (os_path_abspath : string → string)
    (os_listdir : world → string → result (list string))
    (os_path_isfile : world → string → bool)
    (json_load : string → result inventory)
    (json_dump_inventory : inventory → string)
    (json_dump_receipt json_dumps_indent : gmap string receipt_value → string)
    (calculate_tree_hash : string → string)
    (deep verbose : bool) (local_dir : string) (p : process) :
  leaves_alone
    (λ path, path = os_path_join local_dir LOCAL_INVENTORY_FILENAME ∨
             path = os_path_join local_dir CHECK_RECEIPT_FILENAME)
    verbose p
    (main os_path_join os_path_abspath os_listdir os_path_isfile json_load
       json_dump_inventory json_dump_receipt json_dumps_indent
       calculate_tree_hash deep verbose local_dir p).2.
Proof.
  revert p. unfold main.
  apply cio_bind_leaves_alone.
  { destruct deep; [|done]. apply run_io_leaves_alone.
    intros w. apply os_remove_same_but. by left. }
  intros _. apply cio_bind_leaves_alone.
  { apply run_io_leaves_alone. intros w.
    rewrite load_inventory_world. apply same_but_refl. }
  intros old. apply cio_bind_leaves_alone.
  { apply run_io_leaves_alone. intros w. unfold get_valid_files.
    by destruct (os_listdir w local_dir). }
  intros valid. apply cio_bind_leaves_alone.
  { apply run_io_leaves_alone. intros w.
    destruct (update_local_inventory_world os_path_join calculate_tree_hash
                local_dir valid old w) as (n & ->). apply same_but_advance. }
  intros local_inventory. apply cio_bind_leaves_alone.
  { apply run_io_leaves_alone. intros w. apply write_file_same_but. by left. }
  intros _. apply cio_bind_leaves_alone.
  { apply run_io_leaves_alone. intros w.
    rewrite load_inventory_world. apply same_but_refl. }
  intros remote. apply cio_bind_leaves_alone; [apply run_io_lift_leaves_alone|].
  intros missing_local. apply cio_bind_leaves_alone; [apply run_io_lift_leaves_alone|].
  intros missing_remote. apply cio_bind_leaves_alone; [apply run_io_lift_leaves_alone|].
  intros mismatched. apply cio_bind_leaves_alone.
  { apply run_io_leaves_alone. intros w. unfold generate_check_receipt.
    rewrite (io_bind_Ok _ _ _ _ _ (datetime_now_advance w)).
    apply same_but_advance. }
  intros receipt. apply cio_bind_leaves_alone.
  { apply run_io_leaves_alone. intros w. apply write_file_same_but. by right. }
  intros _. destruct verbose; [|done].
  unfold print_check_receipt. apply cio_bind_leaves_alone.
  - intros p. apply print_leaves_alone.
  - intros _. apply print_check_receipt_hints_leaves_alone.
Qed.

(** ** The run of [main] *)

Lemma run_io_lift_inv {A} (r : result A) (p p' : process) (a : A) :
  run_io (lift r) p = (Ok a, p') → r = Ok a ∧ p' = p.
Proof.
  intros [Hr Hout]%run_io_inv. unfold lift in Hr. injection Hr as -> Hw.
  split; [done|]. destruct p, p'; simpl in *; congruence.
Qed.

Lemma write_file_inv (path content : string) (w w' : world) :
  write_file path content w = (Ok (), w') →
  w' = {| files := <[path := Regular content]> (files w);
          clock := clock w; clock_reads := clock_reads w |}.
Proof.
  unfold write_file. destruct (files w !! path) as [[|c]|]; intros [=]; done.
Qed.

Lemma os_remove_inv (path : string) (w w' : world) :
  os_remove path w = (Ok (), w') →
  w' = {| files := delete path (files w);
          clock := clock w; clock_reads := clock_reads w |}.
Proof.
  unfold os_remove. destruct (files w !! path); intros [=]; done.
Qed.

Lemma generate_check_receipt_eq (os_path_abspath : string → string)
    (local_dir : string) (missing_local missing_remote mismatched : list string)
    (w : world) :
  generate_check_receipt os_path_abspath local_dir
    missing_local missing_remote mismatched w
  = (Ok {[ "local_dir" := RStr (os_path_abspath local_dir);
           "missing_local_files" := RList missing_local;
           "missing_remote_files" := RList missing_remote;
           "mismatched_files" := RList mismatched;
           "timestamp" := RStr (clock w (clock_reads w)) ]},
     advance w 1).
Proof.
  unfold generate_check_receipt.
  by rewrite (io_bind_Ok _ _ _ _ _ (datetime_now_advance w)).
Qed.

Lemma print_check_receipt_hints_eq (receipt : gmap string receipt_value)
    (missing_local missing_remote mismatched : list string) (p : process) :
  receipt !! "missing_local_files" = Some (RList missing_local) →
  receipt !! "missing_remote_files" = Some (RList missing_remote) →
  receipt !! "mismatched_files" = Some (RList mismatched) →
  print_check_receipt_hints receipt p
  = (Ok (), {| proc_world := proc_world p;
               stdout := stdout p
                         ++ hint_lines missing_local missing_remote mismatched |}).
Proof.
  intros Hml Hmr Hmm.
  unfold print_check_receipt_hints, print_hint_if, run_io, lift, getitem.
  unfold mbind, cio_bind, mret, cio_ret, print.
  rewrite Hml, Hmr, Hmm.
  destruct missing_local, missing_remote, mismatched; simpl;
    rewrite <- ?app_assoc; reflexivity.
Qed.

Lemma Forall2_elem_of_r {A B} (R : A → B → Prop) (l : list A) (k : list B) (y : B) :
  Forall2 R l k → y ∈ k → ∃ x, x ∈ l ∧ R x y.
Proof.
  induction 1 as [|x y' l k HR _ IH]; intros Hy; [by apply elem_of_nil in Hy|].
  apply elem_of_cons in Hy as [->|Hy].
  - exists x. split; [left | done].
  - destruct (IH Hy) as (x' & Hx' & HR'). exists x'. split; [by right | done].
Qed.

Section MainRun.

Context (os_path_join : string → string → string).
Context (os_path_abspath : string → string).
Context (os_listdir : world → string → result (list string)).
Context (os_path_isfile : world → string → bool).
Context (json_load : string → result inventory).
Context (json_dump_inventory : inventory → string).
Context (json_dump_receipt json_dumps_indent : gmap string receipt_value → string).
Context (calculate_tree_hash : string → string).
Context (local_dir : string).

(** What a run of [main] that returns has done, step by step. *)
Lemma main_inv (deep verbose : bool) (p p' : process) :
  main os_path_join os_path_abspath os_listdir os_path_isfile json_load
    json_dump_inventory json_dump_receipt json_dumps_indent
    calculate_tree_hash deep verbose local_dir p = (Ok (), p') →
  ∃ (w1 : world) (old remote : inventory) (names valid : list string)
    (d : pydict) (records : list entry)
    (missing_local missing_remote mismatched : list string),
    (if deep
     then os_remove (os_path_join local_dir LOCAL_INVENTORY_FILENAME) (proc_world p)
          = (Ok (), w1)
     else w1 = proc_world p) ∧
    load_inventory os_path_join json_load local_dir LOCAL_INVENTORY_FILENAME w1
      = (Ok old, w1) ∧
    os_listdir w1 local_dir = Ok names ∧
    valid = filter (λ f, os_path_isfile w1 (os_path_join local_dir f) = true
                         ∧ f ∉ EXCLUDE_FILENAMES) names ∧
    dictify_inventory old = Ok d ∧
    Forall2 (λ f e, ∃ ts c,
               e = archive_entry f ts c ∧
               checksum_for os_path_join calculate_tree_hash local_dir d w1 f c)
      valid records ∧
    load_inventory os_path_join json_load local_dir REMOTE_INVENTORY_FILENAME
      {| files := <[os_path_join local_dir LOCAL_INVENTORY_FILENAME :=
                      Regular (json_dump_inventory (inv_of records))]> (files w1);
         clock := clock w1;
         clock_reads := clock_reads w1 + length valid |}
      = (Ok remote,
         {| files := <[os_path_join local_dir LOCAL_INVENTORY_FILENAME :=
                         Regular (json_dump_inventory (inv_of records))]> (files w1);
            clock := clock w1;
            clock_reads := clock_reads w1 + length valid |}) ∧
    check_missing_files (inv_of records) remote = Ok missing_local ∧
    check_missing_files remote (inv_of records) = Ok missing_remote ∧
    check_mismatched_files (inv_of records) remote = Ok mismatched ∧
    files (proc_world p')
      = <[os_path_join local_dir CHECK_RECEIPT_FILENAME :=
            Regular (json_dump_receipt
              {[ "local_dir" := RStr (os_path_abspath local_dir);
                 "missing_local_files" := RList missing_local;
                 "missing_remote_files" := RList missing_remote;
                 "mismatched_files" := RList mismatched;
                 "timestamp" :=
                   RStr (clock w1 (clock_reads w1 + length valid)) ]})]>
          (<[os_path_join local_dir LOCAL_INVENTORY_FILENAME :=
               Regular (json_dump_inventory (inv_of records))]> (files w1)) ∧
    stdout p'
      = stdout p ++
        (if verbose
         then json_dumps_indent
                {[ "local_dir" := RStr (os_path_abspath local_dir);
                   "missing_local_files" := RList missing_local;
                   "missing_remote_files" := RList missing_remote;
                   "mismatched_files" := RList mismatched;
                   "timestamp" :=
                     RStr (clock w1 (clock_reads w1 + length valid)) ]}
              :: hint_lines missing_local missing_remote mismatched
         else []).
Proof.
  unfold main. intros Hrun.
  apply cio_bind_inv in Hrun as ([] & p1 & Hremove & Hrun).
  apply cio_bind_inv in Hrun as (old & p2 & Hload & Hrun).
  apply cio_bind_inv in Hrun as (valid & p3 & Hvalid & Hrun).
  apply cio_bind_inv in Hrun as (inv1 & p4 & Hupdate & Hrun).
  apply cio_bind_inv in Hrun as ([] & p5 & Hwrite & Hrun).
  apply cio_bind_inv in Hrun as (remote & p6 & Hremote & Hrun).
  apply cio_bind_inv in Hrun as (ml & p7 & Hml & Hrun).
  apply cio_bind_inv in Hrun as (mr & p8 & Hmr & Hrun).
  apply cio_bind_inv in Hrun as (mm & p9 & Hmm & Hrun).
  apply cio_bind_inv in Hrun as (receipt & p10 & Hreceipt & Hrun).
  apply cio_bind_inv in Hrun as ([] & p11 & Hsave & Hrun).
  apply run_io_lift_inv in Hml as [Hml ->].
  apply run_io_lift_inv in Hmr as [Hmr ->].
  apply run_io_lift_inv in Hmm as [Hmm ->].
  (* the removal *)
  assert (stdout p1 = stdout p ∧
          if deep
          then os_remove (os_path_join local_dir LOCAL_INVENTORY_FILENAME)
                 (proc_world p) = (Ok (), proc_world p1)
          else proc_world p1 = proc_world p) as [Hout1 Hw1].
  { destruct deep.
    - apply run_io_inv in Hremove as [? ?]. done.
    - by injection Hremove as <-. }
  (* the local inventory *)
  apply run_io_inv in Hload as [Hload Hout2].
  destruct (load_inventory_inv _ _ _ _ _ _ _ Hload) as [Hw2' _].
  pose proof Hload as Hold. rewrite Hw2' in Hold.
  assert (proc_world p1 = proc_world p2) as Hw2 by done.
  (* the listing *)
  apply run_io_inv in Hvalid as [Hvalid Hout3].
  unfold get_valid_files in Hvalid. rewrite <- Hw2 in Hvalid.
  destruct (os_listdir (proc_world p1) local_dir) as [names|e] eqn:Hnames;
    [|discriminate Hvalid].
  injection Hvalid as Hvalid Hw3.
  (* the update *)
  apply run_io_inv in Hupdate as [Hupdate Hout4].
  rewrite <- Hw3 in Hupdate.
  apply update_local_inventory_inv in Hupdate as (d & records & Hd & -> & Hw4 & Hrecords).
  (* the local inventory, written *)
  apply run_io_inv in Hwrite as [Hwrite Hout5].
  apply write_file_inv in Hwrite. rewrite Hw4 in Hwrite. simpl in Hwrite.
  (* the remote inventory *)
  apply run_io_inv in Hremote as [Hremote Hout6].
  destruct (load_inventory_inv _ _ _ _ _ _ _ Hremote) as [Hw6' _].
  pose proof Hremote as Hrem. rewrite Hw6' in Hrem.
  assert (proc_world p5 = proc_world p6) as Hw6 by done.
  (* the receipt *)
  apply run_io_inv in Hreceipt as [Hreceipt Hout10].
  rewrite <- Hw6, Hwrite, generate_check_receipt_eq in Hreceipt.
  simpl in Hreceipt. injection Hreceipt as <- Hw10.
  apply run_io_inv in Hsave as [Hsave Hout11].
  apply write_file_inv in Hsave.
  exists (proc_world p1), old, remote, names, valid, d, records, ml, mr, mm.
  rewrite <- Hw10 in Hsave. simpl in Hsave.
  split; [exact Hw1|]. split; [exact Hold|]. split; [exact Hnames|].
  split; [by rewrite Hvalid|]. split; [exact Hd|]. split; [exact Hrecords|].
  split; [by rewrite <- Hwrite|].
  split; [exact Hml|]. split; [exact Hmr|]. split; [exact Hmm|].
  assert (stdout p11 = stdout p) as Hout by congruence.
  destruct verbose.
  - unfold print_check_receipt in Hrun.
    rewrite (cio_bind_Ok _ _ _ _ _ (eq_refl : print _ p11 = _)) in Hrun.
    rewrite (print_check_receipt_hints_eq _ ml mr mm) in Hrun by reflexivity.
    injection Hrun as <-. simpl. rewrite Hsave, Hout. simpl.
    split; [reflexivity|]. by rewrite <- app_assoc.
  - injection Hrun as <-. rewrite Hsave, Hout, app_nil_r. done.
Qed.

End MainRun.

Section MainProperties.

Context (os_path_join : string → string → string).
Context (os_path_abspath : string → string).
Context (os_listdir : world → string → result (list string)).
Context (os_path_isfile : world → string → bool).
Context (json_load : string → result inventory).
Context (json_dump_inventory : inventory → string).
Context (json_dump_receipt json_dumps_indent : gmap string receipt_value → string).
Context (calculate_tree_hash : string → string).
Context (local_dir : string).

(** X14. A deep run in a directory that has no local inventory yet
    raises [IOError] for the path of the local inventory: [os.remove]
    fails, and nothing is read, written or printed. *)
Theorem main_deep_without_inventory (verbose : bool) (p : process) :
  files (proc_world p) !! os_path_join local_dir LOCAL_INVENTORY_FILENAME = None →
  main os_path_join os_path_abspath os_listdir os_path_isfile json_load
    json_dump_inventory json_dump_receipt json_dumps_indent
    calculate_tree_hash true verbose local_dir p
  = (Raise (IOError (os_path_join local_dir LOCAL_INVENTORY_FILENAME)), p).
Proof.
  intros Hnone. unfold main. apply cio_bind_Raise.
  apply run_io_same_world. unfold os_remove. by rewrite Hnone.
Qed.


(** X16. A deep run discards the cache: after a deep run of [main] that
    returns, every record of the local inventory file carries the tree
    hash of the content the file had, whatever checksum the previous
    local inventory held for it. *)
Theorem main_deep_rehashes (verbose : bool) (p p' : process) :
  main os_path_join os_path_abspath os_listdir os_path_isfile json_load
    json_dump_inventory json_dump_receipt json_dumps_indent
    calculate_tree_hash true verbose local_dir p = (Ok (), p') →
  os_path_join local_dir LOCAL_INVENTORY_FILENAME
    ≠ os_path_join local_dir CHECK_RECEIPT_FILENAME →
  ∃ records : list entry,
    files (proc_world p') !! os_path_join local_dir LOCAL_INVENTORY_FILENAME
      = Some (Regular (json_dump_inventory (inv_of records))) ∧
    ∀ e, e ∈ records →
      ∃ f ts content,
        e = archive_entry f ts (calculate_tree_hash content) ∧
        files (proc_world p) !! os_path_join local_dir f = Some (Regular content).
Proof.
  intros Hrun Hlr.
  apply main_inv in Hrun
    as (w1 & old & remote & names & valid & d & records & ml & mr & mm &
        Hremove & Hold & _ & _ & Hd & Hrecords & _ & _ & _ & _ & Hfiles & _).
  exists records. rewrite Hfiles.
  split; [by rewrite lookup_insert_ne, lookup_insert_eq|].
  apply os_remove_inv in Hremove. subst w1.
  destruct (load_inventory_inv _ _ _ _ _ _ _ Hold) as [_ Hfrom].
  destruct Hfrom as [->|(content & Hfile & _)]; last first.
  { simpl in Hfile. rewrite lookup_delete_eq in Hfile. discriminate Hfile. }
  injection Hd as <-.
  intros e He.
  destruct (Forall2_elem_of_r _ _ _ _ Hrecords He)
    as (f & _ & ts & c & -> & [Hcached|(_ & content & Hfile & ->)]);
    [discriminate Hcached|].
  exists f, ts, content. split; [done|].
  simpl in Hfile. by apply lookup_delete_Some in Hfile as [_ ?].
Qed.

End MainProperties.

Lemma main_deep_without_inventory_witness :
  demo_main true true {| proc_world := demo_world_first_run; stdout := [] |}
  = (Raise (IOError (demo_join "photos" LOCAL_INVENTORY_FILENAME)),
     {| proc_world := demo_world_first_run; stdout := [] |}).
Proof.
  apply (main_deep_without_inventory demo_join demo_abspath demo_listdir
           demo_isfile demo_json_load demo_dump_inventory demo_dump_receipt
           demo_dumps_indent demo_tree_hash "photos" true
           {| proc_world := demo_world_first_run; stdout := [] |}).
  reflexivity.
Defined.

(** The first run in [demo_world_first_run], evaluated: both files are
    hashed, [a.txt] does not match the remote checksum and [b.txt] is not
    in the remote inventory. *)
Example demo_main_first_run :
  (demo_main false true {| proc_world := demo_world_first_run; stdout := [] |}).1
    = Ok () ∧
  stdout (demo_main false true
            {| proc_world := demo_world_first_run; stdout := [] |}).2
    = ["receipt-document, indented"; PROBLEM_LINE; MISSING_REMOTE_HINT;
       MISMATCHED_HINT].
Proof. split; vm_compute; reflexivity. Qed.


Lemma main_deep_rehashes_witness :
  ∃ records : list entry,
    files (proc_world (demo_main true false
             {| proc_world := demo_world; stdout := [] |}).2)
      !! demo_join "photos" LOCAL_INVENTORY_FILENAME
      = Some (Regular (demo_dump_inventory (inv_of records))) ∧
    ∀ e, e ∈ records →
      ∃ f ts content,
        e = archive_entry f ts (demo_tree_hash content) ∧
        files demo_world !! demo_join "photos" f = Some (Regular content).
Proof.
  apply (main_deep_rehashes demo_join demo_abspath demo_listdir demo_isfile
           demo_json_load demo_dump_inventory demo_dump_receipt
           demo_dumps_indent demo_tree_hash "photos" false
           {| proc_world := demo_world; stdout := [] |}).
  - vm_compute. reflexivity.
  - vm_compute. discriminate.
Defined.

(** X17. A local inventory file that parses but does not project (a
    record lacks a field, or there is no [ArchiveList]) stops every run
    that is not deep: once the directory is listed, [main] raises the
    error of the projection, and has written and printed nothing. *)
Theorem main_malformed_local_inventory
    (os_path_join : string → string → string)
    (os_path_abspath : string → string)
    (os_listdir : world → string → result (list string))
    (os_path_isfile : world → string → bool)
    (json_load : string → result inventory)
    (json_dump_inventory : inventory → string)
    (json_dump_receipt json_dumps_indent : gmap string receipt_value → string)
    (calculate_tree_hash : string → string)
    (local_dir content : string) (old : inventory) (names : list string)
    (e : exn) (verbose : bool) (p : process) :
  files (proc_world p) !! os_path_join local_dir LOCAL_INVENTORY_FILENAME
    = Some (Regular content) →
  json_load content = Ok old →
  dictify_inventory old = Raise e →
  os_listdir (proc_world p) local_dir = Ok names →
  main os_path_join os_path_abspath os_listdir os_path_isfile json_load
    json_dump_inventory json_dump_receipt json_dumps_indent
    calculate_tree_hash false verbose local_dir p
  = (Raise e, p).
Proof.
  intros Hfile Hjson Hd Hnames. unfold main.
  rewrite (cio_bind_Ok (mret ()) _ p p ()) by reflexivity.
  rewrite (cio_bind_Ok _ _ p p old); last first.
  { apply run_io_same_world. unfold load_inventory, try_except.
    rewrite (io_bind_Ok _ _ _ _ _ (open_read_Ok _ _ _ Hfile)).
    by rewrite Hjson. }
  rewrite (cio_bind_Ok _ _ p p
             (filter (λ f, os_path_isfile (proc_world p) (os_path_join local_dir f)
                           = true ∧ f ∉ EXCLUDE_FILENAMES) names)); last first.
  { apply run_io_same_world. unfold get_valid_files. by rewrite Hnames. }
  apply cio_bind_Raise, run_io_same_world.
  unfold update_local_inventory. apply io_bind_Raise. unfold lift. by rewrite Hd.
Qed.

Lemma main_malformed_local_inventory_witness :
  main demo_join demo_abspath demo_listdir demo_isfile demo_json_load_bad
    demo_dump_inventory demo_dump_receipt demo_dumps_indent demo_tree_hash
    false true "photos" {| proc_world := demo_world; stdout := [] |}
  = (Raise (KeyError "SHA256TreeHash"),
     {| proc_world := demo_world; stdout := [] |}).
Proof.
  apply (main_malformed_local_inventory demo_join demo_abspath demo_listdir
           demo_isfile demo_json_load_bad demo_dump_inventory demo_dump_receipt
           demo_dumps_indent demo_tree_hash "photos" "inventory-document"
           (inv_of [{[ "ArchiveDescription" := "a.txt" ]}])
           ["a.txt"; "sub"; "local-inventory.json"; "b.txt";
            "remote-inventory.json"; "check-receipt.json"]);
    reflexivity.
Defined.

(** A run that ends in the parser's uncaught error: the remote inventory
    is nested too deep, [main] raises [RecursionError] after the local
    inventory is written; no receipt is written and nothing is printed. *)
Example demo_main_uncaught_parser_error :
  (main demo_join demo_abspath demo_listdir demo_isfile demo_json_load_limit
     demo_dump_inventory demo_dump_receipt demo_dumps_indent demo_tree_hash
     false true "photos" {| proc_world := demo_world_nested; stdout := [] |}).1
    = Raise RecursionError ∧
  files (proc_world
    (main demo_join demo_abspath demo_listdir demo_isfile demo_json_load_limit
       demo_dump_inventory demo_dump_receipt demo_dumps_indent demo_tree_hash
       false true "photos" {| proc_world := demo_world_nested; stdout := [] |}).2)
    !! "photos/local-inventory.json" = Some (Regular "inventory without records") ∧
  files (proc_world
    (main demo_join demo_abspath demo_listdir demo_isfile demo_json_load_limit
       demo_dump_inventory demo_dump_receipt demo_dumps_indent demo_tree_hash
       false true "photos" {| proc_world := demo_world_nested; stdout := [] |}).2)
    !! "photos/check-receipt.json" = None ∧
  stdout
    (main demo_join demo_abspath demo_listdir demo_isfile demo_json_load_limit
       demo_dump_inventory demo_dump_receipt demo_dumps_indent demo_tree_hash
       false true "photos" {| proc_world := demo_world_nested; stdout := [] |}).2
    = [].
Proof. repeat split; vm_compute; reflexivity. Qed.
